(** * binpacking: a shallow embedding of the 3D bin packing engine

    The development follows [binpacking.go] (the current engine: [BoxSamples],
    [BoxItem.intersect], [intersect], [BoxItem.Dimensions], [Items], [Pack],
    [pack], [Box.place], [pickBox], [getBiggerBox]).

    - Go's [int] is modelled as [Z] with the two's complement wrap-around of a
      64-bit target written out ([GoInt]).
    - A slice is modelled by the list of its elements; the caller's backing
      array, which [sort.Sort] permutes in place, is modelled by an explicit
      store in the last part ([Mem]).
    - [pack] is recursive and loops over the catalog: it is given fuel, and
      the outcome type separates a returned value from a run-time panic and
      from exhausted fuel. *)

From Stdlib Require Import ZArith List Bool Lia String Permutation Sorted.
From stdpp Require Import base list.
Import ListNotations.
Local Open Scope Z_scope.

(** ** Go's [int] *)

Module GoInt.

Definition min_int : Z := - 2 ^ 63.
Definition max_int : Z := 2 ^ 63 - 1.

Definition in_range (z : Z) : Prop := min_int <= z <= max_int.

(** The value an arithmetic result takes in a 64-bit signed integer. *)
Definition wrap (z : Z) : Z := (z + 2 ^ 63) mod 2 ^ 64 - 2 ^ 63.

Definition add (a b : Z) : Z := wrap (a + b).
Definition sub (a b : Z) : Z := wrap (a - b).
Definition mul (a b : Z) : Z := wrap (a * b).
(** [a / 2] truncates toward zero in Go. *)
Definition half (a : Z) : Z := Z.quot a 2.

End GoInt.

Import GoInt.

(** ** Data model *)

(** [type Item interface]: the engine only reads the four accessors. *)
Record Item : Type := mkItem {
  GetWidth : Z;
  GetHeight : Z;
  GetDepth : Z;
  GetWeight : Z
}.

(** [type RotationType int] with the constants [RT1 .. RT6] (0 .. 5). *)
Inductive RotationType : Type := RT1 | RT2 | RT3 | RT4 | RT5 | RT6.

(** [[3]int]: a position or a triple of extents, indexed 0, 1, 2. *)
Record Vec3 : Type := mkVec3 { v0 : Z; v1 : Z; v2 : Z }.

Definition origin : Vec3 := mkVec3 0 0 0.

Record BoxItem : Type := mkBoxItem {
  BItem : Item;
  Pos : Vec3;
  RType : RotationType
}.

Record Box : Type := mkBox {
  Name : string;
  Width : Z;
  Height : Z;
  Depth : Z;
  Weight : Z;
  Items : list BoxItem
}.

(** [Box{}], the zero value returned when no template qualifies. *)
Definition zeroBox : Box := mkBox "" 0 0 0 0 [].

Definition template (n : string) (w h d wt : Z) : Box := mkBox n w h d wt [].

Definition BoxSamples : list Box :=
  [ template "Box1" 220 160 100 110;
    template "Box2" 260 145 145 120;
    template "Box3" 270 185 110 140;
    template "Box4" 310 220 140 210;
    template "Box5" 300 210 200 250;
    template "Box6" 300 300 130 290;
    template "Box7" 370 270 150 300;
    template "Box8" 300 300 250 360;
    template "Box9" 470 280 210 400;
    template "Box10" 430 315 200 430;
    template "Box11" 330 330 350 500;
    template "Box12" 465 350 370 650 ].

Definition volume (b : Box) : Z := mul (mul (Width b) (Height b)) (Depth b).

Definition IsValid (b : Box) : bool := negb (volume b =? 0).

Definition nonBoxItems (b : Box) : list Item := map BItem (Items b).

Definition with_items (b : Box) (its : list BoxItem) : Box :=
  mkBox (Name b) (Width b) (Height b) (Depth b) (Weight b) its.

(** ** Geometry *)

(** [BoxItem.Dimensions]: the extents of the item under its rotation. *)
Definition Dimensions (bi : BoxItem) : Vec3 :=
  let it := BItem bi in
  match RType bi with
  | RT1 => mkVec3 (GetWidth it) (GetHeight it) (GetDepth it)
  | RT2 => mkVec3 (GetHeight it) (GetWidth it) (GetDepth it)
  | RT3 => mkVec3 (GetHeight it) (GetDepth it) (GetWidth it)
  | RT4 => mkVec3 (GetDepth it) (GetHeight it) (GetWidth it)
  | RT5 => mkVec3 (GetDepth it) (GetWidth it) (GetHeight it)
  | RT6 => mkVec3 (GetWidth it) (GetDepth it) (GetHeight it)
  end.

(** [intersect(o1, o2, x1, y1, x2, y2)]: the rectangle test on centres. *)
Definition intersect (o1 o2 : Z * Z) (x1 y1 x2 y2 : Z) : bool :=
  let centerx1 := add (fst o1) (half x1) in
  let centery1 := add (snd o1) (half y1) in
  let centerx2 := add (fst o2) (half x2) in
  let centery2 := add (snd o2) (half y2) in
  let x := if centerx1 >? centerx2 then sub centerx1 centerx2
           else sub centerx2 centerx1 in
  let y := if centery1 >? centery2 then sub centery1 centery2
           else sub centery2 centery1 in
  (x <? half (add x1 x2)) && (y <? half (add y1 y2)).

(** [bi1.intersect(bi2)]: the three rectangle tests XY, YZ, XZ. *)
Definition BoxItem_intersect (bi1 bi2 : BoxItem) : bool :=
  let d1 := Dimensions bi1 in
  let d2 := Dimensions bi2 in
  intersect (v0 (Pos bi1), v1 (Pos bi1)) (v0 (Pos bi2), v1 (Pos bi2))
            (v0 d1) (v1 d1) (v0 d2) (v1 d2)
  && intersect (v1 (Pos bi1), v2 (Pos bi1)) (v1 (Pos bi2), v2 (Pos bi2))
               (v1 d1) (v2 d1) (v1 d2) (v2 d2)
  && intersect (v0 (Pos bi1), v2 (Pos bi1)) (v0 (Pos bi2), v2 (Pos bi2))
               (v0 d1) (v2 d1) (v0 d2) (v2 d2).

(** ** Placement *)

Definition all_rotations : list RotationType := [RT1; RT2; RT3; RT4; RT5; RT6].

(** The boundary test of [place]; [true] when the rotated item sticks out. *)
Definition out_of_box (b : Box) (pos d : Vec3) : bool :=
  (Width b <? add (v0 pos) (v0 d))
  || (Height b <? add (v1 pos) (v1 d))
  || (Depth b <? add (v2 pos) (v2 d)).

(** The inner [for _, item := range b.Items] of [place]. *)
Definition collides (b : Box) (bi : BoxItem) : bool :=
  existsb (fun item => BoxItem_intersect item bi) (Items b).

(** The [for i := 0; i < 6; i++] loop of [place], from rotation [rts]
    onwards. The result is the flag [fit] and the box after the call. *)
Fixpoint place_from (rts : list RotationType) (b : Box) (item : Item)
    (pos : Vec3) : bool * Box :=
  match rts with
  | [] => (false, b)
  | rt :: rts' =>
      let bi := mkBoxItem item pos rt in
      let d := Dimensions bi in
      if out_of_box b pos d then place_from rts' b item pos
      else if negb (collides b bi)
           then (true, with_items b (Items b ++ [bi]))
           else (false, b)
  end.

Definition place (b : Box) (item : Item) (pos : Vec3) : bool * Box :=
  place_from all_rotations b item pos.

(** ** Catalog *)

Fixpoint pickBox_from (samples : list Box) (item : Item) : Box :=
  match samples with
  | [] => zeroBox
  | b :: rest =>
      if fst (place b item origin) then with_items b []
      else pickBox_from rest item
  end.

Definition pickBox (item : Item) : Box := pickBox_from BoxSamples item.

Fixpoint getBiggerBox_from (samples : list Box) (v : Z) : Box :=
  match samples with
  | [] => zeroBox
  | b :: rest => if v <? volume b then b else getBiggerBox_from rest v
  end.

Definition getBiggerBox (box : Box) : Box :=
  getBiggerBox_from BoxSamples (volume box).

(** ** Outcomes of a call *)

Inductive outcome (A : Type) : Type :=
| Ret (a : A)      (* the call returns [a] *)
| Panic            (* index out of range *)
| OutOfFuel.       (* the model ran out of fuel *)

Arguments Ret {A} a.
Arguments Panic {A}.
Arguments OutOfFuel {A}.

Definition obind {A B : Type} (m : outcome A) (k : A -> outcome B) : outcome B :=
  match m with
  | Ret a => k a
  | Panic => Panic
  | OutOfFuel => OutOfFuel
  end.

Notation "'do' x <- m ; k" := (obind m (fun x => k))
  (at level 10, x pattern, m at level 100, k at level 200).

(** ** The fill procedure [pack] *)

(** The candidate anchor for axis [p] next to the placed item [binItem]
    ([switch p] in [pack]; [var pos [3]int] is the zero triple otherwise). *)
Definition anchor (p : nat) (binItem : BoxItem) : Vec3 :=
  let q := Pos binItem in
  match p with
  | 0%nat => mkVec3 (add (v0 q) (GetWidth (BItem binItem))) (v1 q) (v2 q)
  | 1%nat => mkVec3 (v0 q) (add (v1 q) (GetHeight (BItem binItem))) (v2 q)
  | 2%nat => mkVec3 (v0 q) (v1 q) (add (v2 q) (GetDepth (BItem binItem)))
  | _ => origin
  end.

(** [for _, binItem := range currentBin.Items]: the range expression is
    evaluated once, the box is threaded through the calls of [place]. *)
Fixpoint lookup_items (binItems : list BoxItem) (p : nat) (currentBin : Box)
    (currenItem : Item) : bool * Box :=
  match binItems with
  | [] => (false, currentBin)
  | binItem :: rest =>
      let '(fit, bin1) := place currentBin currenItem (anchor p binItem) in
      if fit then (true, bin1) else lookup_items rest p bin1 currenItem
  end.

(** [for p := 0; p < 3; p++], from the axes [ps] onwards. *)
Fixpoint lookup_axes (ps : list nat) (currentBin : Box) (currenItem : Item)
    : bool * Box :=
  match ps with
  | [] => (false, currentBin)
  | p :: ps' =>
      let '(fitted, bin1) :=
        lookup_items (Items currentBin) p currentBin currenItem in
      if fitted then (true, bin1) else lookup_axes ps' bin1 currenItem
  end.

(** The loop labelled [lookup]. *)
Definition lookup (currentBin : Box) (currenItem : Item) : bool * Box :=
  lookup_axes [0; 1; 2]%nat currentBin currenItem.

Definition pack_result : Type := outcome (Box * list Item).

Section PackBody.

(** The recursive calls of [pack]. *)
Variable pack_rec : Box -> list Item -> bool -> pack_result.

(** The catalog loop [for nbin := getBiggerBox(..); nbin.IsValid();
    nbin = getBiggerBox(nbin)]: the result is [fitted] and the working box
    after the loop. *)
Fixpoint escalate (k : nat) (nbin currentBin : Box) (currenItem : Item)
    : outcome (bool * Box) :=
  if IsValid nbin then
    match k with
    | O => OutOfFuel
    | S k' =>
        do (nbin1, left_) <-
          pack_rec nbin (nonBoxItems currentBin ++ [currenItem]) false;
        if (length left_ =? 0)%nat then Ret (true, nbin1)
        else escalate k' (getBiggerBox nbin1) currentBin currenItem
    end
  else Ret (false, currentBin).

(** [for _, currenItem := range toPack[1:]]. *)
Fixpoint pack_rest (k : nat) (rest : list Item) (currentBin : Box)
    (replaceBin : bool) (notPacked : list Item) : pack_result :=
  match rest with
  | [] => Ret (currentBin, notPacked)
  | currenItem :: rest' =>
      let '(fitted, bin1) := lookup currentBin currenItem in
      if fitted then pack_rest k rest' bin1 replaceBin notPacked
      else if replaceBin then
        do (fitted', bin2) <-
          escalate k (getBiggerBox bin1) bin1 currenItem;
        if fitted' then pack_rest k rest' bin2 replaceBin notPacked
        else pack_rest k rest' bin2 replaceBin (notPacked ++ [currenItem])
      else pack_rest k rest' bin1 replaceBin (notPacked ++ [currenItem])
  end.

Definition pack_body (k : nat) (currentBin : Box) (toPack : list Item)
    (replaceBin : bool) : pack_result :=
  match toPack with
  | [] => Panic
  | first :: rest =>
      let '(fit, bin1) := place currentBin first origin in
      if negb fit then
        let nbin := getBiggerBox bin1 in
        if IsValid nbin then pack_rec nbin toPack replaceBin
        else Ret (bin1, toPack)
      else pack_rest k rest bin1 replaceBin []
  end.

End PackBody.

(** [pack(currentBin, toPack, replaceBin)]: the result is the working box
    after the call and the returned [notPacked]. One unit of
    fuel is spent per nested call and per turn of the catalog loop. *)
Fixpoint pack (fuel : nat) (currentBin : Box) (toPack : list Item)
    (replaceBin : bool) : pack_result :=
  match fuel with
  | O => OutOfFuel
  | S fuel' => pack_body (pack fuel') fuel' currentBin toPack replaceBin
  end.

(** ** The entry point [Pack] *)

(** The error built by [fmt.Errorf]: item too big, with the four accessors
    of the offending item. *)
Inductive error : Type :=
| ItemTooBig (width height depth weight : Z).

Definition item_volume (it : Item) : Z :=
  mul (mul (GetWidth it) (GetHeight it)) (GetDepth it).

(** [for len(notPacked) > 0], [n] bounds the number of turns. *)
Fixpoint Pack_loop (fuel n : nat) (boxes : list Box) (notPacked : list Item)
    : outcome (list Box * option error) :=
  match notPacked with
  | [] => Ret (boxes, None)
  | first :: _ =>
      match n with
      | O => OutOfFuel
      | S n' =>
          let toPack := notPacked in
          let currentBin := pickBox first in
          if negb (IsValid currentBin) then
            Ret (boxes, Some (ItemTooBig (GetWidth first) (GetHeight first)
                                         (GetDepth first) (GetWeight first)))
          else
            do (bin1, notPacked1) <- pack fuel currentBin toPack true;
            let boxes1 := if (0 <? length (Items bin1))%nat
                          then boxes ++ [bin1] else boxes in
            Pack_loop fuel n' boxes1 notPacked1
      end
  end.

(** ** Sorting the input: [sort.Sort(Items(notPacked))] *)

(** [Items.Less(i, j)]: descending volume. *)
Definition Items_Less (its : list Item) (i j : nat) : outcome bool :=
  match its !! i, its !! j with
  | Some a, Some b => Ret (item_volume a >? item_volume b)
  | _, _ => Panic
  end.

(** [Items.Swap(i, j)]: [swap := is[i]; is[i] = is[j]; is[j] = swap]. *)
Definition Items_Swap (its : list Item) (i j : nat) : outcome (list Item) :=
  match its !! i, its !! j with
  | Some a, Some b => Ret (<[j := a]> (<[i := b]> its))
  | _, _ => Panic
  end.

Fixpoint apply_swaps (swaps : list (nat * nat)) (its : list Item)
    : outcome (list Item) :=
  match swaps with
  | [] => Ret its
  | (i, j) :: swaps' => do its1 <- Items_Swap its i j; apply_swaps swaps' its1
  end.

(** What [sort.Sort] is expected to establish: no element is [Less] than
    one that stands before it. *)
Definition sorted_desc (its : list Item) : Prop :=
  forall i j a b, (i < j)%nat -> its !! i = Some a -> its !! j = Some b ->
    item_volume b <= item_volume a.

Section Sorting.

(** The library routine [sort.Sort] is not part of the repository. It acts
    on the slice only through [Items.Swap]; [sort_swaps] stands for the
    sequence of swaps it decides on for given contents. *)
Variable sort_swaps : list Item -> list (nat * nat).

Definition sort_Sort (its : list Item) : outcome (list Item) :=
  apply_swaps (sort_swaps its) its.

(** [Pack(notPacked)]: the boxes and the error it returns. *)
Definition Pack (fuel : nat) (notPacked : list Item)
    : outcome (list Box * option error) :=
  do sorted <- sort_Sort notPacked;
  Pack_loop fuel fuel [] sorted.

End Sorting.

(** Insertion sort through [Less] and [Swap], the way [sort.Sort] handles a
    short slice; it serves as a concrete instance of [sort_swaps]. *)
Fixpoint sift_swaps (its : list Item) (j : nat) : list (nat * nat) * list Item :=
  match j with
  | O => ([], its)
  | S j' =>
      match its !! j, its !! j' with
      | Some a, Some b =>
          if item_volume a >? item_volume b then
            let '(sw, r) := sift_swaps (<[j' := a]> (<[j := b]> its)) j' in
            ((j, j') :: sw, r)
          else ([], its)
      | _, _ => ([], its)
      end
  end.

Fixpoint insertion_from (n i : nat) (its : list Item) : list (nat * nat) :=
  match n with
  | O => []
  | S n' =>
      let '(sw, its1) := sift_swaps its i in
      sw ++ insertion_from n' (S i) its1
  end.

Definition insertion_swaps (its : list Item) : list (nat * nat) :=
  insertion_from (length its - 1) 1 its.

(** ** The slices of [Pack] in memory

    [Pack] receives a slice that shares its backing array with the caller.
    This part spells out the slice headers and the backing arrays of the
    [[]Item] values that [Pack] and [pack] handle: [sort.Sort] swaps cells
    in place, [append] writes in place while capacity is left and allocates
    a new array otherwise. The placed items of a box stay lists: a box is
    the only owner of its [Items]. *)

Module Mem.

(** A slice header. *)
Record slice : Type := mkSlice { arr : nat; off : nat; len : nat; cap : nat }.

(** The [nil] slice: the initial value of the named result [notPacked] and
    of [r] in [nonBoxItems]. *)
Definition nil_slice : slice := mkSlice 0 0 0 0.

(** The backing arrays, by number; a cell is [None] while it holds the nil
    interface value. *)
Abbreviation store := (list (list (option Item))).

Definition M (A : Type) : Type := store -> outcome (A * store).

Definition ret {A : Type} (a : A) : M A := fun st => Ret (a, st).

Definition bind {A B : Type} (m : M A) (k : A -> M B) : M B :=
  fun st =>
    match m st with
    | Ret (a, st1) => k a st1
    | Panic => Panic
    | OutOfFuel => OutOfFuel
    end.

Definition panic {A : Type} : M A := fun _ => Panic.
Definition out_of_fuel {A : Type} : M A := fun _ => OutOfFuel.

Notation "'run' x <- m ; k" := (bind m (fun x => k))
  (at level 10, x pattern, m at level 100, k at level 200).

(** [s[i]] as a value. *)
Definition load (s : slice) (i : nat) : M Item :=
  fun st =>
    if (i <? len s)%nat then
      match st !! arr s with
      | Some a =>
          match a !! (off s + i)%nat with
          | Some (Some x) => Ret (x, st)
          | _ => Panic
          end
      | None => Panic
      end
    else Panic.

(** [s[i] = x]. *)
Definition store_at (s : slice) (i : nat) (x : Item) : M unit :=
  fun st =>
    if (i <? len s)%nat then
      match st !! arr s with
      | Some a =>
          if (off s + i <? length a)%nat
          then Ret (tt, <[arr s := <[(off s + i)%nat := Some x]> a]> st)
          else Panic
      | None => Panic
      end
    else Panic.

(** [s[1:]]. *)
Definition reslice1 (s : slice) : M slice :=
  if (1 <=? len s)%nat
  then ret (mkSlice (arr s) (off s + 1) (len s - 1) (cap s - 1))
  else panic.

(** The cells [s[0:len(s)]]. *)
Definition cells (st : store) (s : slice) : list (option Item) :=
  match st !! arr s with
  | Some a => take (len s) (drop (off s) a)
  | None => []
  end.

(** The elements of [s], read one by one. *)
Fixpoint load_from (s : slice) (n i : nat) : M (list Item) :=
  match n with
  | O => ret []
  | S n' => run x <- load s i; run xs <- load_from s n' (S i); ret (x :: xs)
  end.

Definition contents (s : slice) : M (list Item) := load_from s (len s) 0.

Section Runtime.

(** The spare capacity the runtime adds when [append] has to allocate an
    array for the given number of elements. *)
Variable spare : nat -> nat.

(** The swaps [sort.Sort] decides on, as in [Sorting]. *)
Variable sort_swaps : list Item -> list (nat * nat).

(** [append(s, x)]. *)
Definition append (s : slice) (x : Item) : M slice :=
  fun st =>
    if (len s <? cap s)%nat then
      match st !! arr s with
      | Some a =>
          if (off s + len s <? length a)%nat
          then Ret (mkSlice (arr s) (off s) (S (len s)) (cap s),
                    <[arr s := <[(off s + len s)%nat := Some x]> a]> st)
          else Panic
      | None => Panic
      end
    else
      let n := S (len s) in
      Ret (mkSlice (length st) 0 n (n + spare n),
           st ++ [cells st s ++ Some x :: replicate (spare n) None]).

Fixpoint append_all (r : slice) (xs : list Item) : M slice :=
  match xs with
  | [] => ret r
  | x :: xs' => run r1 <- append r x; append_all r1 xs'
  end.

(** [Box.nonBoxItems]: [r] starts as [nil] and grows by [append]. *)
Definition nonBoxItems (b : Box) : M slice :=
  append_all nil_slice (map BItem (Items b)).

Definition pack_result : Type := M (Box * slice).

Section PackBody.

Variable pack_rec : Box -> slice -> bool -> pack_result.

Fixpoint escalate (k : nat) (nbin currentBin : Box) (currenItem : Item)
    : M (bool * Box) :=
  if IsValid nbin then
    match k with
    | O => out_of_fuel
    | S k' =>
        run r <- nonBoxItems currentBin;
        run items <- append r currenItem;
        run (nbin1, left_) <- pack_rec nbin items false;
        if (len left_ =? 0)%nat then ret (true, nbin1)
        else escalate k' (getBiggerBox nbin1) currentBin currenItem
    end
  else ret (false, currentBin).

(** [for _, currenItem := range toPack[1:]]: [n] turns are left, [i] is the
    index of the next element of [rest]. *)
Fixpoint pack_rest (k n i : nat) (rest : slice) (currentBin : Box)
    (replaceBin : bool) (notPacked : slice) : pack_result :=
  match n with
  | O => ret (currentBin, notPacked)
  | S n' =>
      run currenItem <- load rest i;
      let '(fitted, bin1) := lookup currentBin currenItem in
      if fitted then pack_rest k n' (S i) rest bin1 replaceBin notPacked
      else if replaceBin then
        run (fitted', bin2) <- escalate k (getBiggerBox bin1) bin1 currenItem;
        if fitted' then pack_rest k n' (S i) rest bin2 replaceBin notPacked
        else
          run notPacked1 <- append notPacked currenItem;
          pack_rest k n' (S i) rest bin2 replaceBin notPacked1
      else
        run notPacked1 <- append notPacked currenItem;
        pack_rest k n' (S i) rest bin1 replaceBin notPacked1
  end.

Definition pack_body (k : nat) (currentBin : Box) (toPack : slice)
    (replaceBin : bool) : pack_result :=
  run first <- load toPack 0;
  let '(fit, bin1) := place currentBin first origin in
  if negb fit then
    let nbin := getBiggerBox bin1 in
    if IsValid nbin then pack_rec nbin toPack replaceBin
    else ret (bin1, toPack)
  else
    run rest <- reslice1 toPack;
    pack_rest k (len rest) 0 rest bin1 replaceBin nil_slice.

End PackBody.

Fixpoint pack (fuel : nat) (currentBin : Box) (toPack : slice)
    (replaceBin : bool) : pack_result :=
  match fuel with
  | O => out_of_fuel
  | S fuel' => pack_body (pack fuel') fuel' currentBin toPack replaceBin
  end.

(** [Items.Swap(i, j)] on the backing array. *)
Definition Items_Swap (s : slice) (i j : nat) : M unit :=
  run swap <- load s i;
  run x <- load s j;
  run _ <- store_at s i x;
  store_at s j swap.

Fixpoint apply_swaps (swaps : list (nat * nat)) (s : slice) : M unit :=
  match swaps with
  | [] => ret tt
  | (i, j) :: swaps' => run _ <- Items_Swap s i j; apply_swaps swaps' s
  end.

Definition sort_Sort (s : slice) : M unit :=
  run its <- contents s;
  apply_swaps (sort_swaps its) s.

Fixpoint Pack_loop (fuel n : nat) (boxes : list Box) (notPacked : slice)
    : M (list Box * option error) :=
  if (0 <? len notPacked)%nat then
    match n with
    | O => out_of_fuel
    | S n' =>
        let toPack := notPacked in
        run first <- load toPack 0;
        let currentBin := pickBox first in
        if negb (IsValid currentBin) then
          ret (boxes, Some (ItemTooBig (GetWidth first) (GetHeight first)
                                       (GetDepth first) (GetWeight first)))
        else
          run (bin1, notPacked1) <- pack fuel currentBin toPack true;
          let boxes1 := if (0 <? length (Items bin1))%nat
                        then boxes ++ [bin1] else boxes in
          Pack_loop fuel n' boxes1 notPacked1
    end
  else ret (boxes, None).

(** [Pack(notPacked)] on the caller's slice: the result is the returned
    pair together with the store after the call. *)
Definition Pack (fuel : nat) (notPacked : slice)
    : M (list Box * option error) :=
  run _ <- sort_Sort notPacked;
  Pack_loop fuel fuel [] notPacked.

End Runtime.

(** A store that holds the caller's items in one array, and the slice over
    it. *)
Definition caller_store (its : list Item) : store := [map Some its].
Definition caller_slice (its : list Item) : slice :=
  mkSlice 0 0 (length its) (length its).

End Mem.

(** * Properties *)

(** ** Arithmetic of [GoInt] *)

Lemma wrap_in_range (z : Z) : in_range z -> wrap z = z.
Proof.
  unfold in_range, min_int, max_int, wrap. intros Hz.
  rewrite Z.mod_small; lia.
Qed.

Lemma add_small (a b : Z) : in_range (a + b) -> add a b = a + b.
Proof. apply wrap_in_range. Qed.

(** ** The catalog *)

Definition sample_volume (i : nat) : Z := volume (nth i BoxSamples zeroBox).

(** The two places where the catalog is not ascending by volume. *)
Definition volume_inversion (i j : nat) : Prop :=
  (i = 4 /\ j = 5)%nat \/ (i = 8 /\ j = 9)%nat.

Lemma sample_volumes :
  map volume BoxSamples =
  [3520000; 5466500; 5494500; 9548000; 12600000; 11700000; 14985000;
   22500000; 27636000; 27090000; 38115000; 60217500].
Proof. reflexivity. Qed.

(** C4, as stated, fails: Box5 (index 4) has a larger volume than Box6
    (index 5), so the catalog is not ascending by volume. *)
Lemma BoxSamples_not_ascending :
  ~ (forall i j : nat, (i < j < length BoxSamples)%nat ->
       sample_volume i <= sample_volume j).
Proof.
  intros H.
  assert (Hle : sample_volume 4 <= sample_volume 5) by (apply H; simpl; lia).
  apply Hle. reflexivity.
Qed.

(** C4, amended: the catalog of 12 templates is ascending by volume except
    at the two adjacent pairs (Box5, Box6) and (Box9, Box10); for every
    other pair of indices i < j the volume at i is strictly below the
    volume at j. *)
Theorem BoxSamples_ascending_but_two (i j : nat) :
  (i < j < length BoxSamples)%nat ->
  ~ volume_inversion i j ->
  sample_volume i < sample_volume j.
Proof.
  intros [Hij Hj] Hninv. change (length BoxSamples) with 12%nat in Hj.
  assert (Hi : (i < 12)%nat) by lia.
  unfold volume_inversion in Hninv.
  do 12 (destruct i as [|i]; [ do 12 (destruct j as [|j];
    [ first [ lia | reflexivity | exfalso; apply Hninv; lia ] | ]); lia | ]).
  lia.
Qed.

Lemma BoxSamples_ascending_but_two_witness :
  sample_volume 4 < sample_volume 6 /\ sample_volume 5 < sample_volume 6.
Proof.
  split.
  - apply (BoxSamples_ascending_but_two 4 6).
    + simpl; lia.
    + unfold volume_inversion; lia.
  - apply (BoxSamples_ascending_but_two 5 6).
    + simpl; lia.
    + unfold volume_inversion; lia.
Defined.

(** ** Geometry: the overlap test *)

(** The overlap of two intervals as the specification words it: centres
    [o + w/2] and half-widths [w/2] in exact arithmetic,
    [|c1 - c2| < h1 + h2]. Both sides are doubled to stay in [Z]. *)
Definition overlap_1d (o1 w1 o2 w2 : Z) : bool :=
  Z.abs ((2 * o1 + w1) - (2 * o2 + w2)) <? w1 + w2.

(** The rotated boxes of two placed items intersect with positive volume. *)
Definition overlaps (bi1 bi2 : BoxItem) : bool :=
  let d1 := Dimensions bi1 in
  let d2 := Dimensions bi2 in
  overlap_1d (v0 (Pos bi1)) (v0 d1) (v0 (Pos bi2)) (v0 d2)
  && overlap_1d (v1 (Pos bi1)) (v1 d1) (v1 (Pos bi2)) (v1 d2)
  && overlap_1d (v2 (Pos bi1)) (v2 d1) (v2 (Pos bi2)) (v2 d2).

(** The exact test says that the two intervals share a piece of positive
    length. *)
Lemma overlap_1d_spec (o1 w1 o2 w2 : Z) :
  0 < w1 -> 0 < w2 ->
  overlap_1d o1 w1 o2 w2 = true <->
  Z.max o1 o2 < Z.min (o1 + w1) (o2 + w2).
Proof.
  intros H1 H2. unfold overlap_1d. rewrite Z.ltb_lt. lia.
Qed.

Definition unit_cube : BoxItem := mkBoxItem (mkItem 1 1 1 10) origin RT1.
Definition two_by_one : BoxItem := mkBoxItem (mkItem 2 1 1 10) origin RT1.

(** C2 fails on the code: the unit cube at the origin lies inside the
    2 x 1 x 1 item at the origin, and [intersect] reports no overlap: the
    centres are computed with truncating division (0 + 1/2 = 0 and
    0 + 2/2 = 1), their distance 1 is not below (1 + 2)/2 = 1. *)
Theorem intersect_misses_overlap :
  BoxItem_intersect unit_cube two_by_one = false /\
  overlaps unit_cube two_by_one = true /\
  intersect (0, 0) (0, 0) 1 1 2 1 = false.
Proof. repeat split; reflexivity. Qed.

(** ** Placement *)

Lemma place_from_cases (rts : list RotationType) (b : Box) (item : Item)
    (pos : Vec3) :
  place_from rts b item pos = (false, b) \/
  exists rt, In rt rts /\
    out_of_box b pos (Dimensions (mkBoxItem item pos rt)) = false /\
    collides b (mkBoxItem item pos rt) = false /\
    place_from rts b item pos =
      (true, with_items b (Items b ++ [mkBoxItem item pos rt])).
Proof.
  induction rts as [|rt rts IH]; simpl; [now left|].
  destruct (out_of_box b pos _) eqn:Hout.
  - destruct IH as [IH | (rt' & Hin & H1 & H2 & H3)]; [now left|].
    right. exists rt'. auto.
  - destruct (collides b _) eqn:Hcol; simpl; [now left|].
    right. exists rt. auto.
Qed.

Lemma place_cases (b : Box) (item : Item) (pos : Vec3) :
  place b item pos = (false, b) \/
  exists rt,
    out_of_box b pos (Dimensions (mkBoxItem item pos rt)) = false /\
    collides b (mkBoxItem item pos rt) = false /\
    place b item pos = (true, with_items b (Items b ++ [mkBoxItem item pos rt])).
Proof.
  destruct (place_from_cases all_rotations b item pos)
    as [H | (rt & _ & H1 & H2 & H3)]; [now left|].
  right. exists rt. auto.
Qed.

(** A failed placement leaves the box as it was. *)
Lemma place_fail_unchanged (b b' : Box) (item : Item) (pos : Vec3) :
  place b item pos = (false, b') -> b' = b.
Proof.
  destruct (place_cases b item pos) as [H | (rt & _ & _ & H)];
    rewrite H; intros Heq; inversion Heq; reflexivity.
Qed.


(** A box state and an anchor at which RT1 and RT2 stick out of the box,
    RT3 fits the box and collides, and RT4 would fit without collision. *)
Definition abort_box : Box :=
  with_items (template "Box1" 220 160 100 110)
             [mkBoxItem (mkItem 50 50 50 10) (mkVec3 100 50 0) RT1].
Definition abort_item : Item := mkItem 50 40 110 10.
Definition abort_pos : Vec3 := mkVec3 100 0 0.


(** At the same anchor the later rotation RT4 fits the box and collides
    with nothing; it is never tried. *)
Lemma abort_skips_fitting_rotation :
  out_of_box abort_box abort_pos
    (Dimensions (mkBoxItem abort_item abort_pos RT4)) = false /\
  collides abort_box (mkBoxItem abort_item abort_pos RT4) = false /\
  fst (place abort_box abort_item abort_pos) = false.
Proof. repeat split; reflexivity. Qed.

(** ** The anchor search *)

Lemma lookup_items_cases (binItems : list BoxItem) (p : nat) (b : Box)
    (item : Item) :
  lookup_items binItems p b item = (false, b) \/
  exists binItem b', In binItem binItems /\
    place b item (anchor p binItem) = (true, b') /\
    lookup_items binItems p b item = (true, b').
Proof.
  induction binItems as [|bi bis IH]; simpl; [now left|].
  destruct (place b item (anchor p bi)) as [fit b1] eqn:Hp.
  destruct fit.
  - right. exists bi, b1. auto.
  - apply place_fail_unchanged in Hp as ->.
    destruct IH as [IH | (bi' & b' & Hin & H1 & H2)]; [now left|].
    right. exists bi', b'. auto.
Qed.

Lemma lookup_axes_cases (ps : list nat) (b : Box) (item : Item) :
  lookup_axes ps b item = (false, b) \/
  exists p binItem b', In p ps /\ In binItem (Items b) /\
    place b item (anchor p binItem) = (true, b') /\
    lookup_axes ps b item = (true, b').
Proof.
  induction ps as [|p ps IH]; simpl; [now left|].
  destruct (lookup_items_cases (Items b) p b item)
    as [H | (bi & b' & Hin & H1 & H)]; rewrite H.
  - destruct IH as [IH | (p' & bi & b' & Hp & Hin & H1 & H2)]; [now left|].
    right. exists p', bi, b'. auto.
  - right. exists p, bi, b'. auto.
Qed.

Lemma lookup_cases (b : Box) (item : Item) :
  lookup b item = (false, b) \/
  exists p binItem b', In binItem (Items b) /\
    place b item (anchor p binItem) = (true, b') /\
    lookup b item = (true, b').
Proof.
  destruct (lookup_axes_cases [0; 1; 2]%nat b item)
    as [H | (p & bi & b' & _ & Hin & H1 & H2)]; [now left|].
  right. exists p, bi, b'. auto.
Qed.

(** ** Invariants of the working box

    A property of boxes that holds for the empty templates and survives
    every successful [place] of [pack] holds for the box that [pack]
    leaves, and for every box that [Pack] returns. *)

Section PackInvariant.

Variable Pitem : Item -> Prop.
Variable Inv : Box -> Prop.

Hypothesis Inv_items : forall b, Inv b -> Forall Pitem (nonBoxItems b).
Hypothesis Inv_bigger : forall b, Inv (getBiggerBox b).
Hypothesis Inv_place : forall b item pos b',
  Inv b -> Pitem item ->
  pos = origin \/ (exists p binItem, In binItem (Items b) /\ pos = anchor p binItem) ->
  place b item pos = (true, b') -> Inv b'.

Lemma lookup_inv (b b' : Box) (item : Item) (fitted : bool) :
  Inv b -> Pitem item -> lookup b item = (fitted, b') -> Inv b'.
Proof.
  intros Hb Hi Hl.
  destruct (lookup_cases b item) as [H | (p & bi & b1 & Hin & Hp & H)];
    rewrite H in Hl; inversion Hl; subst; [assumption|].
  eapply Inv_place; eauto.
Qed.

Section Body.

Variable pack_rec : Box -> list Item -> bool -> pack_result.
Hypothesis pack_rec_inv : forall b l rb b' left_,
  Inv b -> Forall Pitem l -> pack_rec b l rb = Ret (b', left_) -> Inv b'.

Lemma escalate_inv (k : nat) (nbin currentBin : Box) (item : Item)
    (fitted : bool) (b' : Box) :
  Inv nbin -> Inv currentBin -> Pitem item ->
  escalate pack_rec k nbin currentBin item = Ret (fitted, b') -> Inv b'.
Proof.
  revert nbin. induction k as [|k IH]; intros nbin Hn Hc Hi; simpl.
  - destruct (IsValid nbin); intros H; inversion H; subst; assumption.
  - destruct (IsValid nbin); [|intros H; inversion H; subst; assumption].
    destruct (pack_rec nbin _ false) as [[nbin1 left_]| |] eqn:Hrec;
      simpl; try discriminate.
    assert (Inv nbin1) as Hn1.
    { eapply pack_rec_inv; [exact Hn| |exact Hrec].
      apply Forall_app. split; [apply Inv_items; assumption|].
      constructor; [assumption|constructor]. }
    destruct (length left_ =? 0)%nat.
    + intros H; inversion H; subst; assumption.
    + apply IH; auto using Inv_bigger.
Qed.

Lemma pack_rest_inv (k : nat) (rest : list Item) (b : Box) (rb : bool)
    (np : list Item) (b' : Box) (left_ : list Item) :
  Inv b -> Forall Pitem rest ->
  pack_rest pack_rec k rest b rb np = Ret (b', left_) -> Inv b'.
Proof.
  revert b np. induction rest as [|item rest IH]; intros b np Hb Hr; simpl.
  - intros H; inversion H; subst; assumption.
  - inversion Hr as [|? ? Hi Hr']; subst.
    destruct (lookup b item) as [fitted bin1] eqn:Hl.
    assert (Inv bin1) as Hb1 by (eapply lookup_inv; eauto).
    destruct fitted; [apply IH; assumption|].
    destruct rb; [|apply IH; assumption].
    destruct (escalate pack_rec k (getBiggerBox bin1) bin1 item)
      as [[fitted' bin2]| |] eqn:He; simpl; try discriminate.
    assert (Inv bin2) as Hb2.
    { eapply escalate_inv; [apply Inv_bigger|exact Hb1|exact Hi|exact He]. }
    destruct fitted'; apply IH; assumption.
Qed.

Lemma pack_body_inv (k : nat) (b : Box) (l : list Item) (rb : bool)
    (b' : Box) (left_ : list Item) :
  Inv b -> Forall Pitem l ->
  pack_body pack_rec k b l rb = Ret (b', left_) -> Inv b'.
Proof.
  intros Hb Hl. destruct l as [|first rest]; simpl; [discriminate|].
  inversion Hl as [|? ? Hf Hr]; subst.
  destruct (place b first origin) as [fit bin1] eqn:Hp.
  destruct fit; simpl.
  - apply pack_rest_inv; [|assumption].
    eapply Inv_place; eauto.
  - apply place_fail_unchanged in Hp as ->.
    destruct (IsValid (getBiggerBox b)).
    + apply pack_rec_inv; auto.
    + intros H; inversion H; subst; assumption.
Qed.

End Body.

Lemma pack_inv (fuel : nat) (b : Box) (l : list Item) (rb : bool)
    (b' : Box) (left_ : list Item) :
  Inv b -> Forall Pitem l -> pack fuel b l rb = Ret (b', left_) -> Inv b'.
Proof.
  revert b l rb b' left_. induction fuel as [|fuel IH]; simpl;
    intros b l rb b' left_ Hb Hl; [discriminate|].
  apply pack_body_inv; assumption.
Qed.

End PackInvariant.

(** ** What [pack] hands back *)

Lemma pack_rest_leftover (pack_rec : Box -> list Item -> bool -> pack_result)
    (k : nat) (rest : list Item) (b : Box) (rb : bool) (np : list Item)
    (b' : Box) (left_ : list Item) :
  pack_rest pack_rec k rest b rb np = Ret (b', left_) ->
  exists l', left_ = np ++ l' /\ sublist l' rest.
Proof.
  revert b np. induction rest as [|item rest IH]; intros b np; simpl.
  - intros H; inversion H; subst. exists []. rewrite app_nil_r. split; constructor.
  - assert (Hskip : forall b1, pack_rest pack_rec k rest b1 rb np = Ret (b', left_) ->
              exists l', left_ = np ++ l' /\ sublist l' (item :: rest)).
    { intros b1 H. apply IH in H as (l' & -> & Hs).
      exists l'. split; [reflexivity|]. now constructor. }
    assert (Hkeep : forall b1,
              pack_rest pack_rec k rest b1 rb (np ++ [item]) = Ret (b', left_) ->
              exists l', left_ = np ++ l' /\ sublist l' (item :: rest)).
    { intros b1 H. apply IH in H as (l' & -> & Hs).
      exists (item :: l'). rewrite <- app_assoc. split; [reflexivity|].
      now constructor. }
    destruct (lookup b item) as [fitted bin1].
    destruct fitted; [apply Hskip|].
    destruct rb; [|apply Hkeep].
    destruct (escalate pack_rec k (getBiggerBox bin1) bin1 item)
      as [[fitted' bin2]| |]; simpl; try discriminate.
    destruct fitted'; [apply Hskip | apply Hkeep].
Qed.

(** [pack] returns the whole batch untouched, or the first item is seated
    and the leftovers are a subsequence of the other items. *)
Lemma pack_leftover (fuel : nat) (b : Box) (first : Item) (rest : list Item)
    (rb : bool) (b' : Box) (left_ : list Item) :
  pack fuel b (first :: rest) rb = Ret (b', left_) ->
  left_ = first :: rest \/ sublist left_ rest.
Proof.
  revert b. induction fuel as [|fuel IH]; intros b; simpl; [discriminate|].
  destruct (place b first origin) as [fit bin1].
  destruct fit; simpl.
  - intros H. apply pack_rest_leftover in H as (l' & -> & Hs). now right.
  - destruct (IsValid (getBiggerBox bin1)); [apply IH|].
    intros H; inversion H; subst. now left.
Qed.

Lemma pack_leftover_sublist (fuel : nat) (b : Box) (l : list Item)
    (rb : bool) (b' : Box) (left_ : list Item) :
  pack fuel b l rb = Ret (b', left_) -> sublist left_ l.
Proof.
  destruct l as [|first rest].
  - destruct fuel; discriminate.
  - intros H. apply pack_leftover in H as [-> | Hs]; [reflexivity|].
    now constructor.
Qed.

Lemma Forall_of_sublist {A : Type} (P : A -> Prop) (l1 l2 : list A) :
  sublist l1 l2 -> Forall P l2 -> Forall P l1.
Proof.
  induction 1 as [|x l1 l2 _ IH|x l1 l2 _ IH]; intros H.
  - constructor.
  - inversion H; subst. constructor; auto.
  - inversion H; subst. auto.
Qed.

Lemma In_of_sublist {A : Type} (l1 l2 : list A) (y : A) :
  sublist l1 l2 -> In y l1 -> In y l2.
Proof.
  induction 1 as [|x l1 l2 _ IH|x l1 l2 _ IH]; simpl; intros H.
  - exact H.
  - destruct H as [H|H]; auto.
  - auto.
Qed.

(** Every box that [Pack_loop] adds satisfies an invariant of [pack] that
    holds for the boxes [pickBox] selects. *)
Lemma Pack_loop_inv (Pitem : Item -> Prop) (Inv : Box -> Prop) :
  (forall b, Inv b -> Forall Pitem (nonBoxItems b)) ->
  (forall b, Inv (getBiggerBox b)) ->
  (forall b item pos b', Inv b -> Pitem item ->
     pos = origin \/
       (exists p binItem, In binItem (Items b) /\ pos = anchor p binItem) ->
     place b item pos = (true, b') -> Inv b') ->
  (forall item, Inv (pickBox item)) ->
  forall fuel n boxes notPacked bs e,
    Forall Inv boxes -> Forall Pitem notPacked ->
    Pack_loop fuel n boxes notPacked = Ret (bs, e) -> Forall Inv bs.
Proof.
  intros H1 H2 H3 H4 fuel n. induction n as [|n IH];
    intros boxes np bs e Hbs Hnp; destruct np as [|first rest]; simpl;
    try (intros H; inversion H; subst; assumption); try discriminate.
  destruct (IsValid (pickBox first)); simpl;
    [|intros H; inversion H; subst; assumption].
  destruct (pack fuel (pickBox first) (first :: rest) true)
    as [[bin1 np1]| |] eqn:Hp; simpl; try discriminate.
  assert (Inv bin1) as Hb1.
  { eapply (pack_inv Pitem Inv H1 H2 H3); [apply H4|exact Hnp|exact Hp]. }
  assert (Forall Pitem np1) as Hnp1.
  { apply pack_leftover_sublist in Hp.
    eapply Forall_of_sublist; eauto. }
  apply IH; [|assumption].
  destruct (0 <? length (Items bin1))%nat; [|assumption].
  apply Forall_app. split; [assumption|]. constructor; [assumption|constructor].
Qed.

(** ** Sorting permutes *)

Lemma insert_perm_delete {A : Type} (l : list A) (i : nat) (a b : A) :
  l !! i = Some a -> <[i := b]> l ≡ₚ b :: delete i l.
Proof.
  intros Hi. assert (i < length l)%nat as Hlt by (eapply lookup_lt_Some; eauto).
  rewrite insert_take_drop by assumption. rewrite delete_take_drop.
  symmetry. apply Permutation_middle.
Qed.

Lemma Items_Swap_perm (its its' : list Item) (i j : nat) :
  Items_Swap its i j = Ret its' -> its ≡ₚ its'.
Proof.
  unfold Items_Swap.
  destruct (its !! i) as [a|] eqn:Hi; [|discriminate].
  destruct (its !! j) as [b|] eqn:Hj; [|discriminate].
  intros H; inversion H; subst; clear H.
  assert (i < length its)%nat as Hlt by (eapply lookup_lt_Some; eauto).
  assert (<[i := b]> its !! j = Some b) as Hj1.
  { destruct (decide (i = j)) as [->|Hne].
    - apply list_lookup_insert_eq; assumption.
    - rewrite list_lookup_insert_ne by assumption. assumption. }
  transitivity (a :: delete i its); [apply delete_Permutation; exact Hi|].
  transitivity (a :: delete j (<[i := b]> its));
    [|symmetry; apply (insert_perm_delete _ j b a Hj1)].
  apply Permutation_cons; [reflexivity|].
  apply (Permutation_cons_inv (a := b)).
  transitivity (<[i := b]> its).
  - symmetry. apply (insert_perm_delete its i a b Hi).
  - apply delete_Permutation. exact Hj1.
Qed.

Lemma apply_swaps_perm (swaps : list (nat * nat)) (its its' : list Item) :
  apply_swaps swaps its = Ret its' -> its ≡ₚ its'.
Proof.
  revert its. induction swaps as [|[i j] swaps IH]; intros its; simpl.
  - intros H; inversion H; reflexivity.
  - destruct (Items_Swap its i j) as [its1| |] eqn:Hs; simpl; try discriminate.
    intros H. apply Items_Swap_perm in Hs. apply IH in H.
    etransitivity; eassumption.
Qed.

(** ** The in-bounds and the no-collision invariant *)

(** The boundary condition as [place] evaluates it, on Go's [int]. *)
Definition in_bounds (b : Box) (bi : BoxItem) : Prop :=
  add (v0 (Pos bi)) (v0 (Dimensions bi)) <= Width b /\
  add (v1 (Pos bi)) (v1 (Dimensions bi)) <= Height b /\
  add (v2 (Pos bi)) (v2 (Dimensions bi)) <= Depth b.

(** The boundary condition over the integers. *)
Definition in_bounds_exact (b : Box) (bi : BoxItem) : Prop :=
  v0 (Pos bi) + v0 (Dimensions bi) <= Width b /\
  v1 (Pos bi) + v1 (Dimensions bi) <= Height b /\
  v2 (Pos bi) + v2 (Dimensions bi) <= Depth b.

(** No later item is reported to collide with an earlier one. *)
Fixpoint pairwise_apart (bis : list BoxItem) : Prop :=
  match bis with
  | [] => True
  | bi :: rest =>
      Forall (fun bj => BoxItem_intersect bi bj = false) rest /\
      pairwise_apart rest
  end.

Definition placed_ok (b : Box) : Prop :=
  Forall (in_bounds b) (Items b) /\ pairwise_apart (Items b).

(** Items with positive dimensions below 2^61, for which no sum that
    [pack] forms can wrap around. *)
Definition item_ok (it : Item) : Prop :=
  0 < GetWidth it < 2 ^ 61 /\ 0 < GetHeight it < 2 ^ 61 /\
  0 < GetDepth it < 2 ^ 61.

Definition box_dims_ok (b : Box) : Prop :=
  0 <= Width b <= 2 ^ 61 /\ 0 <= Height b <= 2 ^ 61 /\ 0 <= Depth b <= 2 ^ 61.

Definition placed_exact (b : Box) (bi : BoxItem) : Prop :=
  item_ok (BItem bi) /\
  0 <= v0 (Pos bi) /\ 0 <= v1 (Pos bi) /\ 0 <= v2 (Pos bi) /\
  in_bounds_exact b bi.

Definition exact_ok (b : Box) : Prop :=
  box_dims_ok b /\ Forall (placed_exact b) (Items b).

Lemma out_of_box_false (b : Box) (bi : BoxItem) :
  out_of_box b (Pos bi) (Dimensions bi) = false <-> in_bounds b bi.
Proof.
  unfold out_of_box, in_bounds.
  rewrite !orb_false_iff, !Z.ltb_ge. tauto.
Qed.

Lemma pairwise_apart_snoc (bis : list BoxItem) (bi : BoxItem) :
  pairwise_apart bis ->
  Forall (fun bj => BoxItem_intersect bj bi = false) bis ->
  pairwise_apart (bis ++ [bi]).
Proof.
  induction bis as [|bj bis IH]; simpl; intros Hp Hf.
  - split; [constructor|exact I].
  - destruct Hp as [Hp1 Hp2]. inversion Hf; subst. split.
    + apply Forall_app. split; [assumption|]. constructor; [assumption|constructor].
    + apply IH; assumption.
Qed.

Lemma collides_false (b : Box) (bi : BoxItem) :
  collides b bi = false ->
  Forall (fun bj => BoxItem_intersect bj bi = false) (Items b).
Proof.
  unfold collides. induction (Items b) as [|bj bis IH]; simpl; intros H.
  - constructor.
  - apply orb_false_iff in H as [H1 H2]. constructor; auto.
Qed.

Lemma placed_ok_place (b b' : Box) (item : Item) (pos : Vec3) :
  placed_ok b -> place b item pos = (true, b') -> placed_ok b'.
Proof.
  intros [Hin Hap] Hp.
  destruct (place_cases b item pos) as [H | (rt & Hout & Hcol & H)];
    rewrite H in Hp; inversion Hp; subst; clear Hp.
  split; simpl.
  - apply Forall_app. split; [exact Hin|].
    constructor; [|constructor]. apply out_of_box_false. exact Hout.
  - apply pairwise_apart_snoc; [assumption|]. apply collides_false. assumption.
Qed.

Lemma getBiggerBox_from_cases (samples : list Box) (v : Z) :
  getBiggerBox_from samples v = zeroBox \/
  (In (getBiggerBox_from samples v) samples /\
   v < volume (getBiggerBox_from samples v)).
Proof.
  induction samples as [|b rest IH]; simpl; [now left|].
  destruct (v <? volume b) eqn:Hv.
  - right. apply Z.ltb_lt in Hv. auto.
  - destruct IH as [IH | [IH1 IH2]]; auto.
Qed.

Lemma getBiggerBox_cases (b : Box) :
  getBiggerBox b = zeroBox \/
  (In (getBiggerBox b) BoxSamples /\ volume b < volume (getBiggerBox b)).
Proof. apply getBiggerBox_from_cases. Qed.

Lemma pickBox_from_cases (samples : list Box) (item : Item) :
  pickBox_from samples item = zeroBox \/
  exists b, In b samples /\ fst (place b item origin) = true /\
    pickBox_from samples item = with_items b [].
Proof.
  induction samples as [|b rest IH]; simpl; [now left|].
  destruct (fst (place b item origin)) eqn:Hp.
  - right. exists b. auto.
  - destruct IH as [IH | (b' & Hin & H1 & H2)]; [now left|].
    right. exists b'. auto.
Qed.

Lemma pickBox_cases (item : Item) :
  pickBox item = zeroBox \/
  exists b, In b BoxSamples /\ fst (place b item origin) = true /\
    pickBox item = with_items b [].
Proof. apply pickBox_from_cases. Qed.

Lemma BoxSamples_empty : Forall (fun b => Items b = []) BoxSamples.
Proof. repeat constructor. Qed.

Lemma BoxSamples_dims_ok : Forall box_dims_ok BoxSamples.
Proof. repeat constructor; simpl; lia. Qed.

Lemma getBiggerBox_empty (b : Box) : Items (getBiggerBox b) = [].
Proof.
  destruct (getBiggerBox_cases b) as [-> | [Hin _]]; [reflexivity|].
  exact (proj1 (List.Forall_forall _ _) BoxSamples_empty _ Hin).
Qed.

Lemma getBiggerBox_dims_ok (b : Box) : box_dims_ok (getBiggerBox b).
Proof.
  destruct (getBiggerBox_cases b) as [-> | [Hin _]].
  - unfold box_dims_ok; simpl; lia.
  - exact (proj1 (List.Forall_forall _ _) BoxSamples_dims_ok _ Hin).
Qed.

Lemma pickBox_empty (item : Item) : Items (pickBox item) = [].
Proof.
  destruct (pickBox_cases item) as [-> | (b & _ & _ & ->)]; reflexivity.
Qed.

Lemma pickBox_dims_ok (item : Item) : box_dims_ok (pickBox item).
Proof.
  destruct (pickBox_cases item) as [-> | (b & Hin & _ & ->)].
  - unfold box_dims_ok; simpl; lia.
  - exact (proj1 (List.Forall_forall _ _) BoxSamples_dims_ok _ Hin).
Qed.

Lemma in_range_sum (a b : Z) :
  0 <= a <= 2 ^ 62 -> 0 < b < 2 ^ 61 -> in_range (a + b).
Proof. unfold in_range, min_int, max_int. lia. Qed.

Lemma Dimensions_ok (item : Item) (pos : Vec3) (rt : RotationType) :
  item_ok item ->
  let d := Dimensions (mkBoxItem item pos rt) in
  0 < v0 d < 2 ^ 61 /\ 0 < v1 d < 2 ^ 61 /\ 0 < v2 d < 2 ^ 61.
Proof.
  unfold item_ok. intros (Hw & Hh & Hd).
  destruct rt; simpl; auto.
Qed.

(** The anchors next to a placed item are non-negative and far from the
    end of the integer range. *)
Lemma anchor_range (b : Box) (binItem : BoxItem) (p : nat) :
  exact_ok b -> In binItem (Items b) ->
  0 <= v0 (anchor p binItem) <= 2 ^ 62 /\
  0 <= v1 (anchor p binItem) <= 2 ^ 62 /\
  0 <= v2 (anchor p binItem) <= 2 ^ 62.
Proof.
  intros [Hdims Hall] Hin.
  pose proof (proj1 (List.Forall_forall _ _) Hall _ Hin)
    as (Hitem & Hp0 & Hp1 & Hp2 & Hb0 & Hb1 & Hb2).
  destruct binItem as [it q rt]; simpl in *.
  pose proof (Dimensions_ok it q rt Hitem) as (Hd0 & Hd1 & Hd2).
  simpl in Hd0, Hd1, Hd2.
  destruct Hdims as (HW & HH & HD).
  destruct Hitem as (Hw & Hh & Hd).
  unfold anchor; simpl.
  destruct p as [|[|[|p]]]; simpl;
    try (rewrite add_small by (apply in_range_sum; lia)); lia.
Qed.

Lemma exact_ok_place (b b' : Box) (item : Item) (pos : Vec3) :
  exact_ok b -> item_ok item ->
  pos = origin \/
    (exists p binItem, In binItem (Items b) /\ pos = anchor p binItem) ->
  place b item pos = (true, b') -> exact_ok b'.
Proof.
  intros Hb Hitem Hpos Hp.
  assert (0 <= v0 pos <= 2 ^ 62 /\ 0 <= v1 pos <= 2 ^ 62 /\
          0 <= v2 pos <= 2 ^ 62) as (Hr0 & Hr1 & Hr2).
  { destruct Hpos as [-> | (p & bi & Hin & ->)].
    - simpl. lia.
    - eapply anchor_range; eauto. }
  destruct Hb as [Hdims Hall].
  destruct (place_cases b item pos) as [H | (rt & Hout & Hcol & H)];
    rewrite H in Hp; inversion Hp; subst; clear Hp.
  split; [exact Hdims|]. simpl.
  apply Forall_app. split; [exact Hall|].
  constructor; [|constructor].
  apply (out_of_box_false b (mkBoxItem item pos rt)) in Hout.
  destruct Hout as (Ho0 & Ho1 & Ho2).
  pose proof (Dimensions_ok item pos rt Hitem) as (Hd0 & Hd1 & Hd2).
  simpl in Hd0, Hd1, Hd2.
  unfold placed_exact, in_bounds_exact; simpl in *.
  rewrite add_small in Ho0 by (apply in_range_sum; lia).
  rewrite add_small in Ho1 by (apply in_range_sum; lia).
  rewrite add_small in Ho2 by (apply in_range_sum; lia).
  unfold item_ok in Hitem. repeat split; try assumption; lia.
Qed.

Lemma exact_ok_items (b : Box) : exact_ok b -> Forall item_ok (nonBoxItems b).
Proof.
  intros [_ Hall]. unfold nonBoxItems. apply Forall_map.
  eapply Forall_impl; [exact Hall|]. intros bi H. exact (proj1 H).
Qed.

Lemma exact_ok_empty (b : Box) : box_dims_ok b -> Items b = [] -> exact_ok b.
Proof. intros Hd He. split; [exact Hd|]. rewrite He. constructor. Qed.

Lemma placed_ok_empty (b : Box) : Items b = [] -> placed_ok b.
Proof. intros He. unfold placed_ok. rewrite He. split; [constructor|exact I]. Qed.

(** Every box [Pack_loop] adds to the list is in bounds and free of
    reported collisions. *)
Lemma Pack_loop_placed_ok (fuel n : nat) (boxes : list Box)
    (notPacked : list Item) (bs : list Box) (e : option error) :
  Forall placed_ok boxes ->
  Pack_loop fuel n boxes notPacked = Ret (bs, e) -> Forall placed_ok bs.
Proof.
  intros Hbs H.
  apply (Pack_loop_inv (fun _ => True) placed_ok) with (7 := H).
  - intros b _. apply Forall_forall. auto.
  - intros b. apply placed_ok_empty, getBiggerBox_empty.
  - intros b item pos b' Hb _ _ Hp. eapply placed_ok_place; eauto.
  - intros item. apply placed_ok_empty, pickBox_empty.
  - exact Hbs.
  - apply Forall_forall. auto.
Qed.

Lemma Pack_loop_exact_ok (fuel n : nat) (boxes : list Box)
    (notPacked : list Item) (bs : list Box) (e : option error) :
  Forall exact_ok boxes -> Forall item_ok notPacked ->
  Pack_loop fuel n boxes notPacked = Ret (bs, e) -> Forall exact_ok bs.
Proof.
  intros Hbs Hnp H.
  apply (Pack_loop_inv item_ok exact_ok) with (7 := H).
  - apply exact_ok_items.
  - intros b. apply exact_ok_empty;
      [apply getBiggerBox_dims_ok | apply getBiggerBox_empty].
  - intros b item pos b' Hb Hi Hpos Hp. eapply exact_ok_place; eauto.
  - intros item. apply exact_ok_empty;
      [apply pickBox_dims_ok | apply pickBox_empty].
  - exact Hbs.
  - exact Hnp.
Qed.


(** ** Templates *)

(** Two boxes are of the same catalog template. *)
Definition same_template (b b' : Box) : Prop :=
  Name b = Name b' /\ Width b = Width b' /\ Height b = Height b' /\
  Depth b = Depth b' /\ Weight b = Weight b'.

Lemma same_template_refl (b : Box) : same_template b b.
Proof. repeat split. Qed.

Lemma same_template_trans (b1 b2 b3 : Box) :
  same_template b1 b2 -> same_template b2 b3 -> same_template b1 b3.
Proof.
  unfold same_template. intros (?&?&?&?&?) (?&?&?&?&?).
  repeat split; congruence.
Qed.

Lemma same_template_volume (b b' : Box) :
  same_template b b' -> volume b = volume b'.
Proof.
  unfold same_template, volume. intros (_&Hw&Hh&Hd&_).
  rewrite Hw, Hh, Hd. reflexivity.
Qed.

Lemma place_same_template (b b' : Box) (item : Item) (pos : Vec3)
    (fit : bool) :
  place b item pos = (fit, b') -> same_template b b'.
Proof.
  destruct (place_cases b item pos) as [H | (rt & _ & _ & H)];
    rewrite H; intros Heq; inversion Heq; subst; repeat split.
Qed.

Lemma lookup_same_template (b b' : Box) (item : Item) (fitted : bool) :
  lookup b item = (fitted, b') -> same_template b b'.
Proof.
  destruct (lookup_cases b item) as [H | (p & bi & b1 & _ & Hp & H)];
    rewrite H; intros Heq; inversion Heq; subst.
  - apply same_template_refl.
  - eapply place_same_template; eauto.
Qed.

(** Without the permission to replace the box, the loop over the other
    items returns and keeps the template: it calls neither the catalog
    loop nor [pack]. *)
Lemma pack_rest_no_replace
    (pack_rec : Box -> list Item -> bool -> pack_result) (k : nat)
    (rest : list Item) (b : Box) (np : list Item) :
  exists b' left_,
    pack_rest pack_rec k rest b false np = Ret (b', left_) /\
    same_template b b'.
Proof.
  revert b np. induction rest as [|item rest IH]; intros b np; simpl.
  - exists b, np. split; [reflexivity|apply same_template_refl].
  - destruct (lookup b item) as [fitted bin1] eqn:Hl.
    apply lookup_same_template in Hl.
    destruct fitted.
    + destruct (IH bin1 np) as (b' & l' & H & Ht).
      exists b', l'. split; [exact H|]. eapply same_template_trans; eauto.
    + destruct (IH bin1 (np ++ [item])) as (b' & l' & H & Ht).
      exists b', l'. split; [exact H|]. eapply same_template_trans; eauto.
Qed.

(** ** The chain of larger templates *)

(** The number of catalog templates of a larger volume than [v]. *)
Fixpoint bigger_count (samples : list Box) (v : Z) : nat :=
  match samples with
  | [] => 0
  | t :: rest => (if v <? volume t then 1 else 0) + bigger_count rest v
  end.

Definition rank (b : Box) : nat := bigger_count BoxSamples (volume b).

Lemma bigger_count_le_length (samples : list Box) (v : Z) :
  (bigger_count samples v <= length samples)%nat.
Proof.
  induction samples as [|t rest IH]; simpl; [lia|].
  destruct (v <? volume t); lia.
Qed.

Lemma bigger_count_mono (samples : list Box) (v v' : Z) :
  v <= v' -> (bigger_count samples v' <= bigger_count samples v)%nat.
Proof.
  intros Hv. induction samples as [|t rest IH]; simpl; [lia|].
  destruct (v' <? volume t) eqn:H1; destruct (v <? volume t) eqn:H2; lia.
Qed.

Lemma IsValid_zeroBox : IsValid zeroBox = false.
Proof. reflexivity. Qed.

Lemma getBiggerBox_from_count (samples : list Box) (v : Z) :
  IsValid (getBiggerBox_from samples v) = true ->
  v < volume (getBiggerBox_from samples v) /\
  (bigger_count samples (volume (getBiggerBox_from samples v))
   < bigger_count samples v)%nat.
Proof.
  induction samples as [|t rest IH]; simpl.
  - rewrite IsValid_zeroBox. discriminate.
  - destruct (v <? volume t) eqn:Hv.
    + intros _. apply Z.ltb_lt in Hv. split; [exact Hv|].
      rewrite Z.ltb_irrefl. simpl.
      pose proof (bigger_count_mono rest v (volume t)). lia.
    + intros Hvalid. destruct (IH Hvalid) as [Hlt Hc]. split; [exact Hlt|].
      apply Z.ltb_ge in Hv.
      destruct (volume (getBiggerBox_from rest v) <? volume t) eqn:Ht.
      * apply Z.ltb_lt in Ht. lia.
      * simpl. exact Hc.
Qed.

Lemma getBiggerBox_bigger (b : Box) :
  IsValid (getBiggerBox b) = true ->
  volume b < volume (getBiggerBox b) /\ (rank (getBiggerBox b) < rank b)%nat.
Proof. apply getBiggerBox_from_count. Qed.

Lemma rank_le (b : Box) : (rank b <= length BoxSamples)%nat.
Proof. apply bigger_count_le_length. Qed.

Lemma rank_mono (b b' : Box) :
  volume b <= volume b' -> (rank b' <= rank b)%nat.
Proof. apply bigger_count_mono. Qed.

(** The templates the escalation for the first item walks through: from
    [b] to the first template in which [item] fits at the origin, or to
    the last template with no larger one. *)
Inductive first_fit_chain (item : Item) : Box -> Box -> Prop :=
| chain_stop (b : Box) :
    fst (place b item origin) = true \/ IsValid (getBiggerBox b) = false ->
    first_fit_chain item b b
| chain_step (b t : Box) :
    fst (place b item origin) = false ->
    IsValid (getBiggerBox b) = true ->
    first_fit_chain item (getBiggerBox b) t ->
    first_fit_chain item b t.

Lemma first_fit_chain_volume (item : Item) (b t : Box) :
  first_fit_chain item b t -> volume b <= volume t.
Proof.
  induction 1 as [b _|b t _ Hv _ IH]; [lia|].
  apply getBiggerBox_bigger in Hv. lia.
Qed.

(** With [replaceBin = false], [pack] returns once the fuel exceeds the
    rank of the box, and the box it leaves is of the template at the end
    of the chain for the first item. *)
Lemma pack_no_replace_returns (fuel : nat) (b : Box) (first : Item)
    (rest : list Item) :
  (rank b < fuel)%nat ->
  exists b' left_ t,
    pack fuel b (first :: rest) false = Ret (b', left_) /\
    first_fit_chain first b t /\ same_template t b'.
Proof.
  revert b. induction fuel as [|fuel IH]; intros b Hr; [lia|]. simpl.
  destruct (place b first origin) as [fit bin1] eqn:Hp.
  destruct fit; simpl.
  - destruct (pack_rest_no_replace (pack fuel) fuel rest bin1 [])
      as (b' & l' & H & Ht).
    exists b', l', b. split; [exact H|]. split.
    + apply chain_stop. left. rewrite Hp. reflexivity.
    + apply place_same_template in Hp. eapply same_template_trans; eauto.
  - apply place_fail_unchanged in Hp as Hb. subst bin1.
    destruct (IsValid (getBiggerBox b)) eqn:Hv.
    + pose proof (getBiggerBox_bigger b Hv) as [_ Hrk].
      destruct (IH (getBiggerBox b)) as (b' & l' & t & H & Hc & Ht); [lia|].
      exists b', l', t. split; [exact H|]. split; [|exact Ht].
      apply chain_step; [rewrite Hp; reflexivity|exact Hv|exact Hc].
    + exists b, (first :: rest), b. split; [reflexivity|]. split.
      * apply chain_stop. now right.
      * apply same_template_refl.
Qed.

Lemma first_fit_chain_unique (item : Item) (b t t' : Box) :
  first_fit_chain item b t -> first_fit_chain item b t' -> t = t'.
Proof.
  induction 1 as [b Hs|b t Hp Hv _ IH]; intros H'.
  - inversion H' as [|? ? Hp' Hv' _]; subst; [reflexivity|].
    destruct Hs as [Hs|Hs]; congruence.
  - inversion H' as [? Hs'|]; subst; [|auto].
    destruct Hs' as [Hs'|Hs']; congruence.
Qed.

Lemma pack_no_replace_chain (fuel : nat) (b : Box) (first : Item)
    (rest : list Item) (b' : Box) (left_ : list Item) :
  pack fuel b (first :: rest) false = Ret (b', left_) ->
  exists t, first_fit_chain first b t /\ same_template t b'.
Proof.
  revert b. induction fuel as [|fuel IH]; intros b; simpl; [discriminate|].
  destruct (place b first origin) as [fit bin1] eqn:Hp.
  destruct fit; simpl.
  - intros H.
    destruct (pack_rest_no_replace (pack fuel) fuel rest bin1 [])
      as (b1 & l1 & H1 & Ht).
    rewrite H1 in H. inversion H; subst.
    exists b. split.
    + apply chain_stop. left. rewrite Hp. reflexivity.
    + apply place_same_template in Hp. eapply same_template_trans; eauto.
  - apply place_fail_unchanged in Hp as Hb. subst bin1.
    destruct (IsValid (getBiggerBox b)) eqn:Hv.
    + intros H. apply IH in H as (t & Hc & Ht).
      exists t. split; [|exact Ht].
      apply chain_step; [rewrite Hp; reflexivity|exact Hv|exact Hc].
    + intros H. inversion H; subst. exists b'. split.
      * apply chain_stop. now right.
      * apply same_template_refl.
Qed.

(** ** C7: the tentative re-pack *)

Definition item_A : Item := mkItem 150 150 100 10.
Definition item_B : Item := mkItem 100 100 100 10.

(** The working box of [Pack] on [item_A; item_B] when [item_B] finds no
    anchor: Box1 with [item_A] at the origin. *)
Definition box1_with_A : Box :=
  with_items (template "Box1" 220 160 100 110)
             [mkBoxItem item_A origin RT1].

(** C7, as stated, fails: the tentative re-pack of [item_A; item_B] into
    the candidate Box2 replaces the candidate by Box3, because [item_A]
    does not fit into Box2 at the origin. The call is the one [Pack] makes
    for the input [item_A; item_B]. *)
Lemma tentative_repack_replaces_template :
  pickBox item_A = template "Box1" 220 160 100 110 /\
  place (pickBox item_A) item_A origin = (true, box1_with_A) /\
  lookup box1_with_A item_B = (false, box1_with_A) /\
  Name (getBiggerBox box1_with_A) = "Box2"%string /\
  exists b',
    pack 12 (getBiggerBox box1_with_A)
         (nonBoxItems box1_with_A ++ [item_B]) false = Ret (b', []) /\
    Name b' = "Box3"%string /\
    ~ same_template (getBiggerBox box1_with_A) b'.
Proof.
  repeat split; try reflexivity.
  eexists. split; [vm_compute; reflexivity|].
  split; [reflexivity|].
  intros (Hn & _). discriminate Hn.
Qed.

(** C7, amended: in the tentative re-pack ([replaceBin = false]) the
    escalation for subsequent items never runs: once the first item is
    seated at the origin the template stays as it is. The template is
    replaced only by the escalation for the first item, which walks to the
    first larger template in which the first item fits at the origin. *)
Theorem tentative_repack_template (fuel : nat) (nbin : Box) (first : Item)
    (rest : list Item) (b' : Box) (left_ : list Item) :
  pack fuel nbin (first :: rest) false = Ret (b', left_) ->
  (exists t, first_fit_chain first nbin t /\ same_template t b') /\
  (fst (place nbin first origin) = true -> same_template nbin b').
Proof.
  intros H. apply pack_no_replace_chain in H as (t & Hc & Ht).
  split; [exists t; auto|].
  intros Hfit. inversion Hc as [|? ? Hp _ _]; subst; [exact Ht|].
  congruence.
Qed.

Lemma tentative_repack_template_witness :
  (exists t, first_fit_chain item_A (template "Box2" 260 145 145 120) t /\
     same_template t
       (with_items (template "Box3" 270 185 110 140)
          [mkBoxItem item_A origin RT1;
           mkBoxItem item_B (mkVec3 150 0 0) RT1])) /\
  same_template (template "Box3" 270 185 110 140)
    (with_items (template "Box3" 270 185 110 140)
       [mkBoxItem item_A origin RT1; mkBoxItem item_B (mkVec3 150 0 0) RT1]).
Proof.
  split.
  - apply (tentative_repack_template 12 (template "Box2" 260 145 145 120)
             item_A [item_B] _ []).
    vm_compute. reflexivity.
  - apply (tentative_repack_template 12 (template "Box3" 270 185 110 140)
             item_A [item_B] _ []).
    + vm_compute. reflexivity.
    + vm_compute. reflexivity.
Defined.

(** ** Termination *)

(** The fuel that suffices for any call of [pack]. *)
Definition pack_fuel : nat := 2 * length BoxSamples + 1.

Section Returns.

Variable fuel : nat.
Variable pack_rec : Box -> list Item -> bool -> pack_result.

(** What the previous approximation of [pack] is known to do. *)
Hypothesis pack_rec_no_replace : forall b first rest,
  (rank b < fuel)%nat ->
  exists b' left_ t,
    pack_rec b (first :: rest) false = Ret (b', left_) /\
    first_fit_chain first b t /\ same_template t b'.

Lemma nonBoxItems_snoc (b : Box) (item : Item) :
  exists first rest, nonBoxItems b ++ [item] = first :: rest.
Proof.
  destruct (nonBoxItems b) as [|x l]; simpl; eauto.
Qed.

Lemma escalate_returns (k : nat) (nbin currentBin : Box) (item : Item) :
  (IsValid nbin = true -> (rank nbin < k)%nat /\ (rank nbin < fuel)%nat) ->
  exists r, escalate pack_rec k nbin currentBin item = Ret r.
Proof.
  revert nbin. induction k as [|k IH]; intros nbin Hr; simpl.
  - destruct (IsValid nbin); [destruct Hr; [reflexivity|lia]|eauto].
  - destruct (IsValid nbin) eqn:Hv; [|eauto].
    destruct (Hr eq_refl) as [Hk Hf].
    destruct (nonBoxItems_snoc currentBin item) as (x & l & ->).
    destruct (pack_rec_no_replace nbin x l Hf) as (nbin1 & l1 & t & -> & Hc & Ht).
    simpl. destruct (length l1 =? 0)%nat; [eauto|].
    apply IH. intros Hv1.
    apply getBiggerBox_bigger in Hv1 as [_ Hlt].
    apply first_fit_chain_volume in Hc.
    apply same_template_volume in Ht.
    assert (rank nbin1 <= rank nbin)%nat by (apply rank_mono; lia).
    lia.
Qed.

Lemma pack_rest_returns (rest : list Item) (b : Box) (rb : bool)
    (np : list Item) :
  (length BoxSamples <= fuel)%nat ->
  exists r, pack_rest pack_rec fuel rest b rb np = Ret r.
Proof.
  intros Hf. revert b np. induction rest as [|item rest IH]; intros b np; simpl.
  - eauto.
  - destruct (lookup b item) as [fitted bin1].
    destruct fitted; [apply IH|].
    destruct rb; [|apply IH].
    destruct (escalate_returns fuel (getBiggerBox bin1) bin1 item)
      as ([fitted' bin2] & ->).
    { intros Hv. apply getBiggerBox_bigger in Hv as [_ Hlt].
      pose proof (rank_le bin1). lia. }
    simpl. destruct fitted'; apply IH.
Qed.

End Returns.

(** [pack] returns for every box and every non-empty batch, given fuel
    above the rank of the box plus the length of the catalog. *)
Lemma pack_returns (fuel : nat) (b : Box) (first : Item) (rest : list Item)
    (rb : bool) :
  (rank b + length BoxSamples < fuel)%nat ->
  exists r, pack fuel b (first :: rest) rb = Ret r.
Proof.
  revert b. induction fuel as [|fuel IH]; intros b Hr; [lia|]. simpl.
  destruct (place b first origin) as [fit bin1] eqn:Hp.
  destruct fit; simpl.
  - apply pack_rest_returns; [|lia].
    intros b0 x l Hb0. apply pack_no_replace_returns. exact Hb0.
  - apply place_fail_unchanged in Hp as ->.
    destruct (IsValid (getBiggerBox b)) eqn:Hv; [|eauto].
    apply IH. apply getBiggerBox_bigger in Hv as [_ Hlt]. lia.
Qed.

Lemma pack_fuel_enough (fuel : nat) (b : Box) (first : Item)
    (rest : list Item) (rb : bool) :
  (pack_fuel <= fuel)%nat ->
  exists r, pack fuel b (first :: rest) rb = Ret r.
Proof.
  intros Hf. apply pack_returns. pose proof (rank_le b).
  unfold pack_fuel in Hf. lia.
Qed.

(** ** The leading item *)

(** The first placed item of the box is [x]. *)
Definition first_seated (x : Item) (b : Box) : Prop :=
  exists bi bis, Items b = bi :: bis /\ BItem bi = x.

Lemma place_first_seated (b b' : Box) (x item : Item) (pos : Vec3)
    (fit : bool) :
  first_seated x b -> place b item pos = (fit, b') -> first_seated x b'.
Proof.
  intros (bi & bis & Hi & Hx).
  destruct (place_cases b item pos) as [H | (rt & _ & _ & H)];
    rewrite H; intros Heq; inversion Heq; subst.
  - exists bi, bis. auto.
  - exists bi, (bis ++ [mkBoxItem item pos rt]). simpl. rewrite Hi. auto.
Qed.

Lemma place_empty_first_seated (b b' : Box) (x : Item) (pos : Vec3) :
  Items b = [] -> place b x pos = (true, b') -> first_seated x b'.
Proof.
  intros He.
  destruct (place_cases b x pos) as [H | (rt & _ & _ & H)];
    rewrite H; intros Heq; inversion Heq; subst.
  exists (mkBoxItem x pos rt), []. simpl. rewrite He. auto.
Qed.

Lemma lookup_first_seated (b b' : Box) (x item : Item) (fitted : bool) :
  first_seated x b -> lookup b item = (fitted, b') -> first_seated x b'.
Proof.
  intros Hs.
  destruct (lookup_cases b item) as [H | (p & bi & b1 & _ & Hp & H)];
    rewrite H; intros Heq; inversion Heq; subst; [exact Hs|].
  eapply place_first_seated; eauto.
Qed.

Section FirstSeated.

Variable pack_rec : Box -> list Item -> bool -> pack_result.
Hypothesis pack_rec_first : forall b x rest rb b' left_,
  Items b = [] -> pack_rec b (x :: rest) rb = Ret (b', left_) ->
  left_ = x :: rest \/ first_seated x b'.

Lemma escalate_first_seated (k : nat) (nbin currentBin : Box) (x item : Item)
    (fitted : bool) (b' : Box) :
  Items nbin = [] -> first_seated x currentBin ->
  escalate pack_rec k nbin currentBin item = Ret (fitted, b') ->
  first_seated x b'.
Proof.
  intros Hn Hs. revert nbin Hn. induction k as [|k IH]; intros nbin Hn; simpl.
  - destruct (IsValid nbin); intros H; inversion H; subst; exact Hs.
  - destruct (IsValid nbin); [|intros H; inversion H; subst; exact Hs].
    assert (exists l, nonBoxItems currentBin ++ [item] = x :: l) as (l & Hl).
    { destruct Hs as (bi & bis & Hi & Hx). unfold nonBoxItems.
      rewrite Hi. simpl. rewrite Hx. eauto. }
    rewrite Hl.
    destruct (pack_rec nbin (x :: l) false) as [[nbin1 l1]| |] eqn:Hrec;
      simpl; try discriminate.
    destruct (length l1 =? 0)%nat eqn:Hlen.
    + intros H; inversion H; subst.
      destruct (pack_rec_first _ _ _ _ _ _ Hn Hrec) as [-> | Hf];
        [discriminate Hlen | exact Hf].
    + apply IH. apply getBiggerBox_empty.
Qed.

Lemma pack_rest_first_seated (k : nat) (rest : list Item) (b : Box)
    (rb : bool) (np : list Item) (x : Item) (b' : Box) (left_ : list Item) :
  first_seated x b ->
  pack_rest pack_rec k rest b rb np = Ret (b', left_) -> first_seated x b'.
Proof.
  revert b np. induction rest as [|item rest IH]; intros b np Hs; simpl.
  - intros H; inversion H; subst; exact Hs.
  - destruct (lookup b item) as [fitted bin1] eqn:Hl.
    apply (lookup_first_seated _ _ x) in Hl; [|exact Hs].
    destruct fitted; [apply IH; exact Hl|].
    destruct rb; [|apply IH; exact Hl].
    destruct (escalate pack_rec k (getBiggerBox bin1) bin1 item)
      as [[fitted' bin2]| |] eqn:He; simpl; try discriminate.
    apply escalate_first_seated with (x := x) in He;
      [|apply getBiggerBox_empty|exact Hl].
    destruct fitted'; apply IH; exact He.
Qed.

End FirstSeated.

(** Started on an empty box, [pack] hands the batch back untouched or
    leaves a box whose first placed item is the first item of the batch. *)
Lemma pack_first_seated (fuel : nat) (b : Box) (x : Item) (rest : list Item)
    (rb : bool) (b' : Box) (left_ : list Item) :
  Items b = [] -> pack fuel b (x :: rest) rb = Ret (b', left_) ->
  left_ = x :: rest \/ first_seated x b'.
Proof.
  revert b x rest rb b' left_. induction fuel as [|fuel IH];
    intros b x rest rb b' left_ He; simpl; [discriminate|].
  destruct (place b x origin) as [fit bin1] eqn:Hp.
  destruct fit; simpl.
  - intros H. right.
    eapply (pack_rest_first_seated (pack fuel) IH); [|exact H].
    eapply place_empty_first_seated; eauto.
  - apply place_fail_unchanged in Hp as ->.
    destruct (IsValid (getBiggerBox b)).
    + apply IH. apply getBiggerBox_empty.
    + intros H; inversion H; subst. now left.
Qed.

(** The box [pickBox] selects takes its item at the origin. *)
Lemma pickBox_place (x : Item) :
  IsValid (pickBox x) = true -> fst (place (pickBox x) x origin) = true.
Proof.
  destruct (pickBox_cases x) as [-> | (b & Hin & Hp & ->)];
    [rewrite IsValid_zeroBox; discriminate|].
  intros _.
  pose proof (proj1 (List.Forall_forall _ _) BoxSamples_empty _ Hin) as He.
  destruct b as [n w h d wt its]. simpl in He. subst its. exact Hp.
Qed.

Lemma pack_pickBox (fuel : nat) (x : Item) (rest : list Item) (rb : bool)
    (b' : Box) (left_ : list Item) :
  IsValid (pickBox x) = true ->
  pack fuel (pickBox x) (x :: rest) rb = Ret (b', left_) ->
  first_seated x b' /\ sublist left_ rest.
Proof.
  intros Hv Hp. pose proof (pickBox_place x Hv) as Hfit.
  destruct fuel as [|fuel]; [discriminate|]. simpl in Hp.
  destruct (place (pickBox x) x origin) as [fit b1] eqn:Hpl.
  simpl in Hfit. subst fit. simpl in Hp. split.
  - eapply (pack_rest_first_seated (pack fuel)); [| |exact Hp].
    + intros b y l rb0 b0 l0. apply pack_first_seated.
    + eapply place_empty_first_seated; [apply pickBox_empty|exact Hpl].
  - apply pack_rest_leftover in Hp as (l' & -> & Hs). exact Hs.
Qed.

Lemma Pack_loop_step (fuel n : nat) (boxes : list Box) (x : Item)
    (rest : list Item) :
  Pack_loop fuel (S n) boxes (x :: rest) =
  if negb (IsValid (pickBox x)) then
    Ret (boxes, Some (ItemTooBig (GetWidth x) (GetHeight x)
                                 (GetDepth x) (GetWeight x)))
  else
    do (bin1, notPacked1) <- pack fuel (pickBox x) (x :: rest) true;
    Pack_loop fuel n (if (0 <? length (Items bin1))%nat
                      then boxes ++ [bin1] else boxes) notPacked1.
Proof. reflexivity. Qed.

(** One turn of the loop of [Pack]: in the selected box the leading item
    is seated first, and fewer items come back than went in. *)
Lemma pack_progress (fuel : nat) (x : Item) (rest : list Item) :
  (pack_fuel <= fuel)%nat -> IsValid (pickBox x) = true ->
  exists bin1 left_,
    pack fuel (pickBox x) (x :: rest) true = Ret (bin1, left_) /\
    (length left_ < length (x :: rest))%nat /\
    sublist left_ rest /\
    first_seated x bin1.
Proof.
  intros Hf Hv.
  destruct (pack_fuel_enough fuel (pickBox x) x rest true Hf)
    as ([bin1 left_] & Hp).
  exists bin1, left_. split; [exact Hp|].
  pose proof (pickBox_place x Hv) as Hfit.
  assert (sublist left_ rest) as Hsub.
  { destruct fuel as [|fuel]; [discriminate|]. simpl in Hp.
    destruct (place (pickBox x) x origin) as [fit b1].
    simpl in Hfit. subst fit. simpl in Hp.
    apply pack_rest_leftover in Hp as (l' & -> & Hs). exact Hs. }
  split; [|split; [exact Hsub|]].
  - apply sublist_length in Hsub. simpl. lia.
  - apply pack_first_seated in Hp as [-> | Hs];
      [|exact Hs|apply pickBox_empty].
    apply sublist_length in Hsub. simpl in Hsub. lia.
Qed.

Lemma Pack_loop_returns (fuel n : nat) (boxes : list Box)
    (notPacked : list Item) :
  (pack_fuel <= fuel)%nat -> (length notPacked <= n)%nat ->
  exists bs e, Pack_loop fuel n boxes notPacked = Ret (bs, e).
Proof.
  intros Hf. revert boxes notPacked.
  induction n as [|n IH]; intros boxes np Hn;
    destruct np as [|x rest]; simpl in *; eauto; [lia|].
  destruct (IsValid (pickBox x)) eqn:Hv; simpl; [|eauto].
  destruct (pack_progress fuel x rest Hf Hv) as (bin1 & l1 & -> & Hlt & _).
  simpl. apply IH. simpl in Hlt. lia.
Qed.

(** ** C3: [Pack] terminates *)

Definition test_items : list Item :=
  [ mkItem 20 100 30 10; mkItem 100 20 30 10; mkItem 20 100 30 10;
    mkItem 100 20 30 10; mkItem 100 20 30 10; mkItem 100 100 30 10;
    mkItem 100 100 30 10 ].

(** The box the repository's test expects for [test_items]. *)
Definition test_box : Box :=
  with_items (template "Box1" 220 160 100 110)
    [ mkBoxItem (mkItem 100 100 30 10) (mkVec3 0 0 0) RT1;
      mkBoxItem (mkItem 100 100 30 10) (mkVec3 100 0 0) RT1;
      mkBoxItem (mkItem 20 100 30 10) (mkVec3 200 0 0) RT1;
      mkBoxItem (mkItem 100 20 30 10) (mkVec3 0 100 0) RT1;
      mkBoxItem (mkItem 20 100 30 10) (mkVec3 100 100 0) RT2;
      mkBoxItem (mkItem 100 20 30 10) (mkVec3 200 100 0) RT3;
      mkBoxItem (mkItem 100 20 30 10) (mkVec3 0 120 0) RT1 ].

(** The model reproduces the expected result of [TestPack]. *)
Lemma TestPack : Pack insertion_swaps 40 test_items = Ret ([test_box], None).
Proof. vm_compute. reflexivity. Qed.

(** C3: [Pack] terminates on every input list on which [sort.Sort]
    returns: with fuel for [pack] and for as many turns as there are items
    it returns a result. In each turn that does not end with the error the
    leading item of the batch is seated first in the selected box and
    strictly fewer items come back than went in. *)
Theorem Pack_terminates (sort_swaps : list Item -> list (nat * nat))
    (fuel : nat) (notPacked sorted : list Item) :
  sort_Sort sort_swaps notPacked = Ret sorted ->
  (pack_fuel <= fuel)%nat -> (length notPacked <= fuel)%nat ->
  (exists boxes err, Pack sort_swaps fuel notPacked = Ret (boxes, err)) /\
  (forall x rest, IsValid (pickBox x) = true ->
     exists bin1 left_,
       pack fuel (pickBox x) (x :: rest) true = Ret (bin1, left_) /\
       (length left_ < length (x :: rest))%nat /\
       first_seated x bin1).
Proof.
  intros Hs Hf Hn. split.
  - unfold Pack. rewrite Hs. simpl.
    apply Pack_loop_returns; [exact Hf|].
    apply apply_swaps_perm in Hs. rewrite <- Hs. exact Hn.
  - intros x rest Hv.
    destruct (pack_progress fuel x rest Hf Hv) as (b1 & l1 & H1 & H2 & _ & H3).
    eauto.
Qed.

Lemma Pack_terminates_witness :
  (exists boxes err, Pack insertion_swaps 40 test_items = Ret (boxes, err)) /\
  (forall x rest, IsValid (pickBox x) = true ->
     exists bin1 left_,
       pack 40 (pickBox x) (x :: rest) true = Ret (bin1, left_) /\
       (length left_ < length (x :: rest))%nat /\
       first_seated x bin1).
Proof.
  apply (Pack_terminates insertion_swaps 40 test_items
           [ mkItem 100 100 30 10; mkItem 100 100 30 10; mkItem 20 100 30 10;
             mkItem 100 20 30 10; mkItem 20 100 30 10; mkItem 100 20 30 10;
             mkItem 100 20 30 10 ]).
  - vm_compute. reflexivity.
  - unfold pack_fuel. simpl. lia.
  - simpl. lia.
Defined.

(** ** C5: the boxes returned with the error *)

Lemma Pack_loop_prefix (fuel n : nat) (boxes : list Box)
    (notPacked : list Item) (bs : list Box) (e : option error) :
  Pack_loop fuel n boxes notPacked = Ret (bs, e) ->
  exists more, bs = boxes ++ more.
Proof.
  revert boxes notPacked. induction n as [|n IH]; intros boxes np;
    destruct np as [|x rest]; simpl;
    try (intros H; inversion H; subst; exists []; now rewrite app_nil_r);
    try discriminate.
  destruct (IsValid (pickBox x)); simpl;
    [|intros H; inversion H; subst; exists []; now rewrite app_nil_r].
  destruct (pack fuel (pickBox x) (x :: rest) true) as [[bin1 np1]| |];
    simpl; try discriminate.
  intros H. apply IH in H as (more & ->).
  destruct (0 <? length (Items bin1))%nat; [|eauto].
  exists (bin1 :: more). rewrite <- app_assoc. reflexivity.
Qed.

(** The error names an item of the batch that fits no template. *)
Lemma Pack_loop_error_item (fuel n : nat) (boxes : list Box)
    (notPacked : list Item) (bs : list Box) (e : error) :
  Pack_loop fuel n boxes notPacked = Ret (bs, Some e) ->
  exists y, In y notPacked /\ IsValid (pickBox y) = false /\
    e = ItemTooBig (GetWidth y) (GetHeight y) (GetDepth y) (GetWeight y).
Proof.
  revert boxes notPacked. induction n as [|n IH]; intros boxes np;
    destruct np as [|x rest]; simpl; try discriminate.
  destruct (IsValid (pickBox x)) eqn:Hv; simpl.
  - destruct (pack fuel (pickBox x) (x :: rest) true) as [[bin1 np1]| |] eqn:Hp;
      simpl; try discriminate.
    intros H. apply IH in H as (y & Hin & Hy & He).
    exists y. split; [|auto].
    apply pack_leftover_sublist in Hp.
    exact (In_of_sublist _ _ _ Hp Hin).
  - intros H; inversion H; subst. exists x. split; [now left|auto].
Qed.

(** An item that fits Box1 and a rod that fits no template. *)
Definition item_cube : Item := mkItem 100 100 100 10.
Definition item_rod : Item := mkItem 1000 1 1 10.

(** C5, as stated, fails: the rod is deferred in the first turn and raises
    the error in the second; the box committed in the first turn is
    returned together with the error. *)
Lemma Pack_error_with_boxes :
  Pack insertion_swaps 40 [item_cube; item_rod] =
    Ret ([with_items (template "Box1" 220 160 100 110)
            [mkBoxItem item_cube origin RT1]],
         Some (ItemTooBig 1000 1 1 10)) /\
  ~ (forall boxes e,
       Pack insertion_swaps 40 [item_cube; item_rod] = Ret (boxes, Some e) ->
       boxes = []).
Proof.
  assert (Pack insertion_swaps 40 [item_cube; item_rod] =
    Ret ([with_items (template "Box1" 220 160 100 110)
            [mkBoxItem item_cube origin RT1]],
         Some (ItemTooBig 1000 1 1 10))) as H by (vm_compute; reflexivity).
  split; [exact H|].
  intros Hc. specialize (Hc _ _ H). discriminate Hc.
Qed.

(** C5, amended: when [Pack] returns the item-too-big error, the error
    names an input item that fits no template, and the returned box list
    is empty exactly when the error is raised in the first turn, that is
    when the leading item of the sorted input fits no template; an error
    raised in a later turn comes with the boxes committed before it. *)
Theorem Pack_error_boxes (sort_swaps : list Item -> list (nat * nat))
    (fuel : nat) (notPacked sorted : list Item) (boxes : list Box)
    (e : error) :
  sort_Sort sort_swaps notPacked = Ret sorted ->
  Pack sort_swaps fuel notPacked = Ret (boxes, Some e) ->
  (exists y, In y notPacked /\ IsValid (pickBox y) = false /\
     e = ItemTooBig (GetWidth y) (GetHeight y) (GetDepth y) (GetWeight y)) /\
  (exists x rest, sorted = x :: rest /\
     (boxes = [] <-> IsValid (pickBox x) = false)).
Proof.
  intros Hs. unfold Pack. rewrite Hs. simpl. intros H. split.
  - apply Pack_loop_error_item in H as (y & Hin & Hy & He).
    exists y. split; [|auto].
    apply apply_swaps_perm in Hs.
    eapply Permutation_in; [symmetry; exact Hs|exact Hin].
  - destruct sorted as [|x rest]; [destruct fuel; discriminate H|].
    exists x, rest. split; [reflexivity|].
    destruct fuel as [|n]; [discriminate H|].
    rewrite Pack_loop_step in H.
    destruct (IsValid (pickBox x)) eqn:Hv; cbn [negb] in H.
    + split; [|discriminate]. intros ->. exfalso.
      destruct (pack (S n) (pickBox x) (x :: rest) true)
        as [[bin1 np1]| |] eqn:Hp; try discriminate H.
      apply pack_pickBox in Hp as [(bi & bis & Hi & _) _]; [|exact Hv].
      cbn [obind] in H. rewrite Hi in H. cbn [length Nat.ltb Nat.leb app] in H.
      apply Pack_loop_prefix in H as (more & H). discriminate H.
    + inversion H; subst. split; auto.
Qed.

Lemma Pack_error_boxes_witness :
  (exists y, In y [item_cube; item_rod] /\ IsValid (pickBox y) = false /\
     ItemTooBig 1000 1 1 10 =
       ItemTooBig (GetWidth y) (GetHeight y) (GetDepth y) (GetWeight y)) /\
  (exists x rest, [item_cube; item_rod] = x :: rest /\
     ([with_items (template "Box1" 220 160 100 110)
         [mkBoxItem item_cube origin RT1]] = [] <->
      IsValid (pickBox x) = false)).
Proof.
  apply (Pack_error_boxes insertion_swaps 40 [item_cube; item_rod]).
  - vm_compute. reflexivity.
  - vm_compute. reflexivity.
Defined.

(** ** C1: placed items that overlap *)

Definition item_P : Item := mkItem 100 80 100 10.
Definition item_Q : Item := mkItem 120 90 70 10.
Definition item_R : Item := mkItem 101 10 100 10.

Definition placed_Q : BoxItem := mkBoxItem item_Q (mkVec3 100 0 0) RT1.
Definition placed_R : BoxItem := mkBoxItem item_R (mkVec3 0 80 0) RT1.

(** C1 fails on the code. For the three items 100x80x100, 120x90x70 and
    101x10x100 (already in descending volume) [Pack] succeeds with one
    Box1 in which the second item occupies [100,220] x [0,90] x [0,70] and
    the third [0,101] x [80,90] x [0,100]: they share the region
    [100,101] x [80,90] x [0,70]. [place] accepts the third item because
    [intersect] reports no overlap for the pair. *)
Theorem Pack_places_overlapping_items :
  Pack insertion_swaps 40 [item_P; item_Q; item_R] =
    Ret ([with_items (template "Box1" 220 160 100 110)
            [mkBoxItem item_P origin RT1; placed_Q; placed_R]], None) /\
  overlaps placed_Q placed_R = true /\
  BoxItem_intersect placed_Q placed_R = false.
Proof. repeat split; vm_compute; reflexivity. Qed.

(** What does hold: within every returned box no pair of placed items is
    reported as overlapping by [BoxItem.intersect]. *)
Lemma Pack_no_reported_overlap (sort_swaps : list Item -> list (nat * nat))
    (fuel : nat) (notPacked : list Item) (boxes : list Box)
    (err : option error) :
  Pack sort_swaps fuel notPacked = Ret (boxes, err) ->
  forall b, In b boxes -> pairwise_apart (Items b).
Proof.
  unfold Pack. intros H b Hb.
  destruct (sort_Sort sort_swaps notPacked) as [sorted| |];
    simpl in H; try discriminate.
  apply Pack_loop_placed_ok in H; [|constructor].
  exact (proj2 (proj1 (List.Forall_forall _ _) H _ Hb)).
Qed.

(** ** C6: the anchors *)

(** The anchor as the specification words it: the position of the placed
    item moved along axis [p] by its rotated extent on that axis. *)
Definition rotated_anchor (p : nat) (binItem : BoxItem) : Vec3 :=
  let q := Pos binItem in
  let d := Dimensions binItem in
  match p with
  | 0%nat => mkVec3 (add (v0 q) (v0 d)) (v1 q) (v2 q)
  | 1%nat => mkVec3 (v0 q) (add (v1 q) (v1 d)) (v2 q)
  | 2%nat => mkVec3 (v0 q) (v1 q) (add (v2 q) (v2 d))
  | _ => origin
  end.

(** For an item seated with RT1 the two agree. *)
Lemma anchor_RT1 (p : nat) (binItem : BoxItem) :
  RType binItem = RT1 -> anchor p binItem = rotated_anchor p binItem.
Proof.
  intros Hr. unfold anchor, rotated_anchor, Dimensions. rewrite Hr.
  reflexivity.
Qed.

Definition item_tall : Item := mkItem 100 220 100 10.
Definition item_small : Item := mkItem 50 50 50 10.

(** [item_tall] fits Box1 only turned: it is seated with RT2 and occupies
    [0,220] x [0,100] x [0,100]. *)
Definition placed_tall : BoxItem := mkBoxItem item_tall origin RT2.
Definition box1_with_tall : Box :=
  with_items (template "Box1" 220 160 100 110) [placed_tall].

(** C6 fails on the code. Next to [placed_tall] the fill loop tries the
    anchors (100,0,0), (0,220,0), (0,0,100): the offsets are the item's
    width, height and depth as given, not its rotated extents 220, 100,
    100. The anchor (0,100,0) that the rotated extent gives, and at which
    [item_small] fits Box1, is never tried; [Pack] ends up in Box4. *)
Theorem anchor_ignores_rotation :
  place (pickBox item_tall) item_tall origin = (true, box1_with_tall) /\
  map (fun p => anchor p placed_tall) [0; 1; 2]%nat =
    [mkVec3 100 0 0; mkVec3 0 220 0; mkVec3 0 0 100] /\
  map (fun p => rotated_anchor p placed_tall) [0; 1; 2]%nat =
    [mkVec3 220 0 0; mkVec3 0 100 0; mkVec3 0 0 100] /\
  lookup box1_with_tall item_small = (false, box1_with_tall) /\
  fst (place box1_with_tall item_small (rotated_anchor 1 placed_tall)) = true /\
  Pack insertion_swaps 40 [item_tall; item_small] =
    Ret ([with_items (template "Box4" 310 220 140 210)
            [mkBoxItem item_tall origin RT1;
             mkBoxItem item_small (mkVec3 100 0 0) RT1]], None).
Proof. repeat split; vm_compute; reflexivity. Qed.


(** ** The slices in memory against the lists *)

Section MemFacts.

Import Mem.

(** The item in cell [i] of the slice, if the cell exists and is not nil. *)
Definition cell (st : store) (s : slice) (i : nat) : option Item :=
  match st !! arr s with
  | Some a =>
      match a !! (off s + i)%nat with
      | Some (Some x) => Some x
      | _ => None
      end
  | None => None
  end.

(** The slice [s] holds the items [l] in the store [st]. *)
Definition holds (st : store) (s : slice) (l : list Item) : Prop :=
  len s = length l /\ forall i, (i < len s)%nat -> cell st s i = l !! i.

(** The capacity of [s] lies within its backing array. *)
Definition wf (st : store) (s : slice) : Prop :=
  (len s < cap s)%nat ->
  exists a, st !! arr s = Some a /\ (off s + cap s <= length a)%nat.

(** An [append] to [s] cannot write into an array of [st0]. *)
Definition fresh (st0 : store) (s : slice) : Prop :=
  (len s < cap s)%nat -> (length st0 <= arr s)%nat.

Lemma load_cell (s : slice) (i : nat) (st : store) :
  load s i st =
  if (i <? len s)%nat then
    match cell st s i with Some x => Ret (x, st) | None => Panic end
  else Panic.
Proof.
  unfold load, cell. destruct (i <? len s)%nat; [|reflexivity].
  destruct (st !! arr s) as [a|]; [|reflexivity].
  destruct (a !! (off s + i)%nat) as [[x|]|]; reflexivity.
Qed.

Lemma load_holds (s : slice) (i : nat) (st : store) (l : list Item) :
  holds st s l ->
  load s i st = match l !! i with Some x => Ret (x, st) | None => Panic end.
Proof.
  intros [Hlen Hc]. rewrite load_cell.
  destruct (i <? len s)%nat eqn:Hi.
  - apply Nat.ltb_lt in Hi. rewrite (Hc i Hi). reflexivity.
  - apply Nat.ltb_ge in Hi. rewrite lookup_ge_None_2 by lia. reflexivity.
Qed.

Lemma cell_prefix (st st' : store) (s : slice) (i : nat) (x : Item) :
  st `prefix_of` st' -> cell st s i = Some x -> cell st' s i = Some x.
Proof.
  intros [ext ->]. unfold cell.
  destruct (st !! arr s) as [a|] eqn:Ha; [|discriminate].
  rewrite (lookup_app_l_Some _ _ _ _ Ha). auto.
Qed.

Lemma holds_prefix (st st' : store) (s : slice) (l : list Item) :
  st `prefix_of` st' -> holds st s l -> holds st' s l.
Proof.
  intros Hp [Hlen Hc]. split; [exact Hlen|]. intros i Hi.
  specialize (Hc i Hi).
  destruct (l !! i) as [x|] eqn:Hl.
  - eapply cell_prefix; eauto.
  - apply lookup_ge_None_1 in Hl. lia.
Qed.

Lemma wf_prefix (st st' : store) (s : slice) :
  st `prefix_of` st' -> wf st s -> wf st' s.
Proof.
  intros [ext ->] Hw Hlt. destruct (Hw Hlt) as (a & Ha & Hcap).
  exists a. split; [|exact Hcap]. apply lookup_app_l_Some. exact Ha.
Qed.

Lemma fresh_prefix (st0 st1 : store) (s : slice) :
  st0 `prefix_of` st1 -> fresh st1 s -> fresh st0 s.
Proof.
  intros Hp Hf Hlt. specialize (Hf Hlt).
  apply prefix_length in Hp. lia.
Qed.

Lemma holds_nil (st : store) : holds st nil_slice [].
Proof. split; [reflexivity|]. simpl. intros i Hi. lia. Qed.

Lemma wf_nil (st : store) : wf st nil_slice.
Proof. intros H. simpl in H. lia. Qed.

Lemma fresh_nil (st : store) : fresh st nil_slice.
Proof. intros H. simpl in H. lia. Qed.

Lemma holds_cells (st : store) (s : slice) (l : list Item) :
  holds st s l -> cells st s = map Some l.
Proof.
  intros [Hlen Hc]. unfold cells. apply list_eq. intros i.
  destruct (decide (i < len s)%nat) as [Hi|Hi].
  - specialize (Hc i Hi). unfold cell in Hc.
    assert (exists x, l !! i = Some x) as (x & Hx).
    { apply lookup_lt_is_Some. lia. }
    rewrite Hx in Hc. rewrite list_lookup_fmap, Hx. simpl.
    destruct (st !! arr s) as [a|]; [|discriminate].
    rewrite lookup_take_lt by assumption. rewrite lookup_drop.
    destruct (a !! (off s + i)%nat) as [[y|]|]; congruence.
  - rewrite list_lookup_fmap.
    rewrite (lookup_ge_None_2 l) by lia. simpl.
    destruct (st !! arr s) as [a|]; [|reflexivity].
    apply lookup_ge_None_2. rewrite length_take. lia.
Qed.

Lemma holds_reslice1 (st : store) (s : slice) (x : Item) (l : list Item) :
  holds st s (x :: l) ->
  reslice1 s st =
    Ret (mkSlice (arr s) (off s + 1) (len s - 1) (cap s - 1), st) /\
  holds st (mkSlice (arr s) (off s + 1) (len s - 1) (cap s - 1)) l.
Proof.
  intros [Hlen Hc]. simpl in Hlen. unfold reslice1.
  destruct (1 <=? len s)%nat eqn:H1; [|apply Nat.leb_gt in H1; lia].
  split; [reflexivity|]. split; [simpl; lia|].
  simpl. intros i Hi. specialize (Hc (S i)). simpl in Hc.
  rewrite <- Hc by lia. unfold cell. simpl.
  replace (off s + 1 + i)%nat with (off s + S i)%nat by lia. reflexivity.
Qed.

End MemFacts.

Section MemOps.

Import Mem.

Variable spare : nat -> nat.

Lemma append_spec (st : store) (s : slice) (l : list Item) (x : Item) :
  holds st s l -> wf st s ->
  exists s' st',
    append spare s x st = Ret (s', st') /\
    holds st' s' (l ++ [x]) /\ wf st' s' /\
    (forall st0, st0 `prefix_of` st -> fresh st0 s ->
       st0 `prefix_of` st' /\ fresh st0 s').
Proof.
  intros Hh Hw. pose proof Hh as [Hlen Hc]. unfold append.
  destruct (len s <? cap s)%nat eqn:Hlt.
  - apply Nat.ltb_lt in Hlt. destruct (Hw Hlt) as (a & Ha & Hcap).
    rewrite Ha.
    assert (off s + len s < length a)%nat as Hidx by lia.
    apply Nat.ltb_lt in Hidx as Hidx'. rewrite Hidx'.
    assert (arr s < length st)%nat as Harr by (eapply lookup_lt_Some; eauto).
    eexists _, _. split; [reflexivity|]. split; [|split].
    + split; [simpl; rewrite length_app; simpl; lia|].
      simpl. intros i Hi. unfold cell. simpl.
      rewrite list_lookup_insert_eq by assumption.
      destruct (decide (i = len s)) as [->|Hne].
      * rewrite list_lookup_insert_eq by assumption.
        rewrite Hlen. rewrite list_lookup_middle by reflexivity. reflexivity.
      * rewrite list_lookup_insert_ne by lia.
        rewrite lookup_app_l by lia.
        rewrite <- (Hc i) by lia. unfold cell. rewrite Ha. reflexivity.
    + intros _. simpl. eexists. split.
      * apply list_lookup_insert_eq. assumption.
      * rewrite length_insert. exact Hcap.
    + intros st0 [ext ->] Hf. specialize (Hf Hlt). split.
      * rewrite insert_app_r_alt by assumption. eexists. reflexivity.
      * intros _. simpl. exact Hf.
  - eexists _, _. split; [reflexivity|].
    rewrite (holds_cells _ _ _ Hh).
    assert (map Some l ++ Some x :: replicate (spare (S (len s))) None =
            map Some (l ++ [x]) ++ replicate (spare (S (len s))) None) as ->.
    { rewrite map_app. rewrite <- app_assoc. reflexivity. }
    split; [|split].
    + split; [simpl; rewrite length_app; simpl; lia|].
      simpl. intros i Hi. unfold cell. simpl.
      rewrite list_lookup_middle by reflexivity.
      assert (exists y, (l ++ [x]) !! i = Some y) as (y & Hy).
      { apply lookup_lt_is_Some. rewrite length_app. simpl. lia. }
      rewrite lookup_app_l by (rewrite length_map, length_app; simpl; lia).
      rewrite list_lookup_fmap, Hy. reflexivity.
    + intros _. simpl. eexists. split.
      * apply list_lookup_middle. reflexivity.
      * rewrite length_app, length_map, length_app, length_replicate.
        simpl. lia.
    + intros st0 Hp _. split.
      * apply prefix_app_r. exact Hp.
      * intros _. simpl. apply prefix_length. exact Hp.
Qed.

Lemma append_all_spec (xs : list Item) (st : store) (r : slice)
    (l : list Item) :
  holds st r l -> wf st r ->
  exists r' st',
    append_all spare r xs st = Ret (r', st') /\
    holds st' r' (l ++ xs) /\ wf st' r' /\
    (forall st0, st0 `prefix_of` st -> fresh st0 r ->
       st0 `prefix_of` st' /\ fresh st0 r').
Proof.
  revert st r l. induction xs as [|x xs IH]; intros st r l Hh Hw; simpl.
  - exists r, st. rewrite app_nil_r. unfold ret. auto.
  - destruct (append_spec st r l x Hh Hw) as (r1 & st1 & Ha & Hh1 & Hw1 & Hf1).
    destruct (IH st1 r1 (l ++ [x]) Hh1 Hw1) as (r' & st' & Ha' & Hh' & Hw' & Hf').
    exists r', st'. unfold bind. rewrite Ha.
    rewrite <- app_assoc in Hh'. simpl in Hh'.
    split; [exact Ha'|]. split; [exact Hh'|]. split; [exact Hw'|].
    intros st0 Hp Hf. destruct (Hf1 st0 Hp Hf) as [Hp1 Hfr1]. auto.
Qed.

End MemOps.

Section MemSort.

Variable spare : nat -> nat.

Lemma nonBoxItems_spec (b : Box) (st : Mem.store) :
  exists r st',
    Mem.nonBoxItems spare b st = Ret (r, st') /\
    holds st' r (nonBoxItems b) /\ wf st' r /\
    st `prefix_of` st' /\ fresh st r.
Proof.
  destruct (append_all_spec spare (map BItem (Items b)) st Mem.nil_slice []
              (holds_nil st) (wf_nil st))
    as (r & st' & Ha & Hh & Hw & Hf).
  destruct (Hf st (reflexivity st) (fresh_nil st)) as [Hp Hfr].
  exists r, st'. auto using fresh_nil.
Qed.

Lemma store_at_spec (st : Mem.store) (s : Mem.slice) (l : list Item) (i : nat)
    (x : Item) :
  holds st s l -> (i < Mem.len s)%nat ->
  exists st',
    Mem.store_at s i x st = Ret (tt, st') /\ holds st' s (<[i := x]> l).
Proof.
  intros [Hlen Hc] Hi. unfold Mem.store_at.
  apply Nat.ltb_lt in Hi as Hi'. rewrite Hi'.
  assert (exists y, l !! i = Some y) as (y & Hy)
    by (apply lookup_lt_is_Some; lia).
  pose proof (Hc i Hi) as Hci. rewrite Hy in Hci. unfold cell in Hci.
  destruct (st !! Mem.arr s) as [a|] eqn:Ha; [|discriminate].
  assert (Mem.off s + i < length a)%nat as Hidx.
  { destruct (a !! (Mem.off s + i)%nat) eqn:Hai; [|discriminate].
    eapply lookup_lt_Some; eauto. }
  apply Nat.ltb_lt in Hidx as Hidx'. rewrite Hidx'.
  assert (Mem.arr s < length st)%nat as Harr by (eapply lookup_lt_Some; eauto).
  eexists. split; [reflexivity|].
  split; [rewrite length_insert; exact Hlen|].
  intros k Hk. unfold cell. rewrite list_lookup_insert_eq by assumption.
  destruct (decide (k = i)) as [->|Hne].
  - rewrite !list_lookup_insert_eq by lia. reflexivity.
  - rewrite !list_lookup_insert_ne by lia.
    rewrite <- (Hc k Hk). unfold cell. rewrite Ha. reflexivity.
Qed.

(** [Items.Swap] on the backing array does what it does on the list. *)
Lemma Items_Swap_sim (st : Mem.store) (s : Mem.slice) (l : list Item)
    (i j : nat) :
  holds st s l ->
  match Items_Swap l i j with
  | Ret l' =>
      exists st', Mem.Items_Swap s i j st = Ret (tt, st') /\ holds st' s l'
  | _ => Mem.Items_Swap s i j st = Panic
  end.
Proof.
  intros Hh. unfold Items_Swap, Mem.Items_Swap, Mem.bind.
  rewrite (load_holds _ _ _ _ Hh).
  destruct (l !! i) as [a|] eqn:Hi; [|reflexivity].
  rewrite (load_holds _ _ _ _ Hh).
  destruct (l !! j) as [b|] eqn:Hj; [|reflexivity].
  pose proof Hh as [Hlen _].
  assert (i < Mem.len s)%nat as Hi' by (apply lookup_lt_Some in Hi; lia).
  assert (j < Mem.len s)%nat as Hj' by (apply lookup_lt_Some in Hj; lia).
  destruct (store_at_spec st s l i b Hh Hi') as (st1 & -> & Hh1).
  destruct (store_at_spec st1 s _ j a Hh1 Hj') as (st2 & -> & Hh2).
  exists st2. auto.
Qed.

Lemma apply_swaps_sim (swaps : list (nat * nat)) (st : Mem.store)
    (s : Mem.slice) (l : list Item) :
  holds st s l ->
  match apply_swaps swaps l with
  | Ret l' =>
      exists st', Mem.apply_swaps swaps s st = Ret (tt, st') /\ holds st' s l'
  | _ => Mem.apply_swaps swaps s st = Panic
  end.
Proof.
  revert st l. induction swaps as [|[i j] swaps IH]; intros st l Hh; simpl.
  - exists st. auto.
  - unfold Mem.bind. pose proof (Items_Swap_sim st s l i j Hh) as Hs.
    destruct (Items_Swap l i j) as [l1| |]; simpl;
      [|rewrite Hs; reflexivity|rewrite Hs; reflexivity].
    destruct Hs as (st1 & -> & Hh1). apply IH. exact Hh1.
Qed.

Lemma load_from_holds (st : Mem.store) (s : Mem.slice) (l : list Item)
    (n i : nat) :
  holds st s l -> (i + n = Mem.len s)%nat ->
  Mem.load_from s n i st = Ret (drop i l, st).
Proof.
  intros Hh. pose proof Hh as [Hlen _]. revert i.
  induction n as [|n IH]; intros i Hi; simpl.
  - unfold Mem.ret. rewrite drop_ge by lia. reflexivity.
  - unfold Mem.bind. rewrite (load_holds _ _ _ _ Hh).
    assert (exists x, l !! i = Some x) as (x & Hx)
      by (apply lookup_lt_is_Some; lia).
    rewrite Hx. rewrite IH by lia. unfold Mem.ret.
    rewrite (drop_S _ _ _ Hx). reflexivity.
Qed.

Lemma contents_holds (st : Mem.store) (s : Mem.slice) (l : list Item) :
  holds st s l -> Mem.contents s st = Ret (l, st).
Proof.
  intros Hh. unfold Mem.contents.
  rewrite (load_from_holds st s l) by (auto; lia).
  reflexivity.
Qed.

End MemSort.

(** ** [pack] and [Pack] in memory compute what they compute on lists *)

(** The call in memory ends as the call on lists does; when it returns, the
    returned slice holds the returned list and the arrays that existed at
    the start are untouched. *)
Definition sim_pack (st0 : Mem.store) (on_lists : pack_result)
    (in_mem : outcome (Box * Mem.slice * Mem.store)) : Prop :=
  match on_lists with
  | Ret (b, l) =>
      exists s st, in_mem = Ret (b, s, st) /\ holds st s l /\
        st0 `prefix_of` st
  | Panic => in_mem = Panic
  | OutOfFuel => in_mem = OutOfFuel
  end.

(** The same for a call that returns no slice. *)
Definition sim_ret {A : Type} (st0 : Mem.store) (on_lists : outcome A)
    (in_mem : outcome (A * Mem.store)) : Prop :=
  match on_lists with
  | Ret r => exists st, in_mem = Ret (r, st) /\ st0 `prefix_of` st
  | Panic => in_mem = Panic
  | OutOfFuel => in_mem = OutOfFuel
  end.

Section MemPack.

Variable spare : nat -> nat.

Section Body.

Variable pack_rec : Box -> list Item -> bool -> pack_result.
Variable mpack_rec : Box -> Mem.slice -> bool -> Mem.pack_result.

Hypothesis rec_sim : forall b s rb st l,
  holds st s l -> sim_pack st (pack_rec b l rb) (mpack_rec b s rb st).

Lemma escalate_sim (k : nat) (nbin currentBin : Box) (item : Item)
    (st : Mem.store) :
  sim_ret st (escalate pack_rec k nbin currentBin item)
    (Mem.escalate spare mpack_rec k nbin currentBin item st).
Proof.
  revert nbin st. induction k as [|k IH]; intros nbin st; simpl.
  - destruct (IsValid nbin); simpl; [reflexivity|].
    exists st. split; reflexivity.
  - destruct (IsValid nbin); simpl; [|exists st; split; reflexivity].
    unfold Mem.bind.
    destruct (nonBoxItems_spec spare currentBin st)
      as (r & st1 & -> & Hh1 & Hw1 & Hp1 & Hf1).
    destruct (append_spec spare st1 r _ item Hh1 Hw1)
      as (items & st2 & -> & Hh2 & _ & Hf2).
    destruct (Hf2 st Hp1 Hf1) as [Hp2 _].
    pose proof (rec_sim nbin items false st2 _ Hh2) as Hrec.
    destruct (pack_rec nbin (nonBoxItems currentBin ++ [item]) false)
      as [[nbin1 left_]| |]; simpl in *;
      [|rewrite Hrec; reflexivity|rewrite Hrec; reflexivity].
    destruct Hrec as (s3 & st3 & -> & [Hlen3 _] & Hp3).
    rewrite Hlen3.
    destruct (length left_ =? 0)%nat.
    + exists st3. split; [reflexivity|]. etransitivity; eassumption.
    + specialize (IH (getBiggerBox nbin1) st3).
      destruct (escalate pack_rec k (getBiggerBox nbin1) currentBin item)
        as [r4| |]; simpl in *; try exact IH.
      destruct IH as (st4 & -> & Hp4). exists st4. split; [reflexivity|].
      etransitivity; [exact Hp2|]. etransitivity; eassumption.
Qed.

Lemma pack_rest_sim (k : nat) (rb : bool) (st0 : Mem.store) (rs : Mem.slice)
    (l : list Item) :
  holds st0 rs l ->
  forall n i b np_list np st,
    (i + n = Mem.len rs)%nat -> st0 `prefix_of` st ->
    holds st np np_list -> wf st np -> fresh st0 np ->
    sim_pack st0 (pack_rest pack_rec k (drop i l) b rb np_list)
      (Mem.pack_rest spare mpack_rec k n i rs b rb np st).
Proof.
  intros Hrs. pose proof Hrs as [Hlen _].
  induction n as [|n IH]; intros i b np_list np st Hi Hp Hnp Hw Hf.
  - rewrite drop_ge by lia. simpl. exists np, st. auto.
  - assert (exists x, l !! i = Some x) as (x & Hx)
      by (apply lookup_lt_is_Some; lia).
    rewrite (drop_S _ _ _ Hx). simpl. unfold Mem.bind.
    rewrite (load_holds _ _ _ _ (holds_prefix _ _ _ _ Hp Hrs)), Hx.
    assert (Hkeep : forall b1 st1, st0 `prefix_of` st1 ->
              holds st1 np np_list -> wf st1 np ->
              sim_pack st0
                (pack_rest pack_rec k (drop (S i) l) b1 rb (np_list ++ [x]))
                (match Mem.append spare np x st1 with
                 | Ret (np1, st2) =>
                     Mem.pack_rest spare mpack_rec k n (S i) rs b1 rb np1 st2
                 | Panic => Panic
                 | OutOfFuel => OutOfFuel
                 end)).
    { intros b1 st1 Hp1 Hnp1 Hw1.
      destruct (append_spec spare st1 np np_list x Hnp1 Hw1)
        as (np1 & st2 & -> & Hh2 & Hw2 & Hf2).
      destruct (Hf2 st0 Hp1 Hf) as [Hp2 Hfr2].
      apply IH; auto. lia. }
    destruct (lookup b x) as [fitted bin1].
    destruct fitted; [apply IH; auto; lia|].
    destruct rb; [|apply Hkeep; auto].
    pose proof (escalate_sim k (getBiggerBox bin1) bin1 x st) as He.
    destruct (escalate pack_rec k (getBiggerBox bin1) bin1 x)
      as [[fitted' bin2]| |]; simpl in *;
      [|rewrite He; reflexivity|rewrite He; reflexivity].
    destruct He as (st1 & -> & Hp1).
    assert (st0 `prefix_of` st1) as Hp01 by (etransitivity; eassumption).
    destruct fitted'.
    + apply IH; auto;
        [lia|exact (holds_prefix _ _ _ _ Hp1 Hnp)|exact (wf_prefix _ _ _ Hp1 Hw)].
    + apply Hkeep; auto;
        [exact (holds_prefix _ _ _ _ Hp1 Hnp)|exact (wf_prefix _ _ _ Hp1 Hw)].
Qed.

Lemma pack_body_sim (k : nat) (b : Box) (s : Mem.slice) (rb : bool)
    (st : Mem.store) (l : list Item) :
  holds st s l ->
  sim_pack st (pack_body pack_rec k b l rb)
    (Mem.pack_body spare mpack_rec k b s rb st).
Proof.
  intros Hh. unfold pack_body, Mem.pack_body, Mem.bind.
  rewrite (load_holds _ _ _ _ Hh).
  destruct l as [|first rest]; simpl; [reflexivity|].
  destruct (place b first origin) as [fit bin1].
  destruct fit; simpl.
  - destruct (holds_reslice1 st s first rest Hh) as [-> Hrest].
    apply (pack_rest_sim k rb st _ rest Hrest _ 0%nat); simpl; auto.
    + apply holds_nil.
    + apply wf_nil.
    + apply fresh_nil.
  - destruct (IsValid (getBiggerBox bin1)).
    + apply rec_sim. exact Hh.
    + exists s, st. auto.
Qed.

End Body.

Lemma pack_sim (fuel : nat) (b : Box) (s : Mem.slice) (rb : bool)
    (st : Mem.store) (l : list Item) :
  holds st s l ->
  sim_pack st (pack fuel b l rb) (Mem.pack spare fuel b s rb st).
Proof.
  revert b s rb st l. induction fuel as [|fuel IH]; intros b s rb st l Hh.
  - reflexivity.
  - simpl. apply pack_body_sim; assumption.
Qed.

Lemma Pack_loop_sim (fuel n : nat) (boxes : list Box) (s : Mem.slice)
    (st : Mem.store) (l : list Item) :
  holds st s l ->
  sim_ret st (Pack_loop fuel n boxes l)
    (Mem.Pack_loop spare fuel n boxes s st).
Proof.
  revert boxes s st l. induction n as [|n IH]; intros boxes s st l Hh;
    pose proof Hh as [Hlen _];
    destruct l as [|x rest]; simpl in Hlen; simpl; rewrite Hlen; simpl;
    try (exists st; split; reflexivity); try reflexivity.
  unfold Mem.bind. rewrite (load_holds _ _ _ _ Hh). simpl.
  destruct (IsValid (pickBox x)); simpl; [|exists st; split; reflexivity].
  pose proof (pack_sim fuel (pickBox x) s true st (x :: rest) Hh) as Hp.
  destruct (pack fuel (pickBox x) (x :: rest) true) as [[bin1 np1]| |];
    simpl in *; [|rewrite Hp; reflexivity|rewrite Hp; reflexivity].
  destruct Hp as (s1 & st1 & -> & Hh1 & Hp1).
  specialize (IH (if (0 <? length (Items bin1))%nat
                  then boxes ++ [bin1] else boxes) s1 st1 np1 Hh1).
  destruct (Pack_loop fuel n _ np1) as [r| |]; simpl in *; try exact IH.
  destruct IH as (st2 & -> & Hp2). exists st2. split; [reflexivity|].
  etransitivity; eassumption.
Qed.

End MemPack.

(** ** C10: [Pack] sorts the caller's slice in place *)

Lemma holds_caller (its : list Item) :
  holds (Mem.caller_store its) (Mem.caller_slice its) its.
Proof.
  split; [reflexivity|]. simpl. intros i Hi. unfold cell. simpl.
  rewrite list_lookup_fmap.
  destruct (its !! i) as [x|]; reflexivity.
Qed.

Lemma apply_swaps_fuel_free (swaps : list (nat * nat)) (its : list Item) :
  apply_swaps swaps its <> OutOfFuel.
Proof.
  revert its. induction swaps as [|[i j] swaps IH]; intros its; simpl.
  - discriminate.
  - unfold Items_Swap.
    destruct (its !! i); [|discriminate].
    destruct (its !! j); [|discriminate].
    simpl. apply IH.
Qed.

(** [Pack] on the caller's slice ends as [Pack] on the list does; when it
    returns, the caller's slice holds what [sort.Sort] made of it. *)
Lemma Pack_sim (spare : nat -> nat)
    (sort_swaps : list Item -> list (nat * nat)) (fuel : nat)
    (s : Mem.slice) (st : Mem.store) (l : list Item) :
  holds st s l ->
  match Pack sort_swaps fuel l with
  | Ret r =>
      exists st' sorted,
        Mem.Pack spare sort_swaps fuel s st = Ret (r, st') /\
        sort_Sort sort_swaps l = Ret sorted /\ holds st' s sorted
  | Panic => Mem.Pack spare sort_swaps fuel s st = Panic
  | OutOfFuel => Mem.Pack spare sort_swaps fuel s st = OutOfFuel
  end.
Proof.
  intros Hh. unfold Pack, Mem.Pack, Mem.sort_Sort, sort_Sort, Mem.bind.
  rewrite (contents_holds _ _ _ Hh).
  pose proof (apply_swaps_sim (sort_swaps l) st s l Hh) as Hs.
  pose proof (apply_swaps_fuel_free (sort_swaps l) l) as Hnf.
  destruct (apply_swaps (sort_swaps l) l) as [sorted| |]; simpl;
    [|rewrite Hs; reflexivity|congruence].
  destruct Hs as (st1 & -> & Hh1).
  pose proof (Pack_loop_sim spare fuel fuel [] s st1 sorted Hh1) as Hl.
  destruct (Pack_loop fuel fuel [] sorted) as [r| |]; simpl in *;
    try exact Hl.
  destruct Hl as (st2 & -> & Hp2).
  exists st2, sorted. split; [reflexivity|]. split; [reflexivity|].
  eapply holds_prefix; eauto.
Qed.


Lemma sorted_desc_pair (a b : Item) :
  item_volume b <= item_volume a -> sorted_desc [a; b].
Proof.
  intros Hv i j x y Hij Hi Hj.
  destruct i as [|[|i]]; destruct j as [|[|j]]; simpl in *;
    try discriminate; try lia.
  inversion Hi; inversion Hj; subst. exact Hv.
Qed.

(** A caller passes the rod before the cube; [rod_cube_store] is the store
    [Pack] leaves behind. *)
Definition rod_cube_store : Mem.store :=
  Eval vm_compute in
    match Mem.Pack (fun n => n) insertion_swaps 40
            (Mem.caller_slice [item_rod; item_cube])
            (Mem.caller_store [item_rod; item_cube]) with
    | Ret (_, st) => st
    | _ => []
    end.


(** * Further properties of the engine *)

(** ** Conservation: no item is dropped or duplicated *)

Lemma place_nonBoxItems (b b' : Box) (item : Item) (pos : Vec3) :
  place b item pos = (true, b') -> nonBoxItems b' = nonBoxItems b ++ [item].
Proof.
  destruct (place_cases b item pos) as [H | (rt & _ & _ & H)];
    rewrite H; intros Heq; inversion Heq; subst.
  unfold nonBoxItems. simpl. rewrite map_app. reflexivity.
Qed.

Lemma lookup_nonBoxItems (b b' : Box) (item : Item) (fitted : bool) :
  lookup b item = (fitted, b') ->
  if fitted then nonBoxItems b' = nonBoxItems b ++ [item] else b' = b.
Proof.
  destruct (lookup_cases b item) as [H | (p & bi & b1 & _ & Hp & H)];
    rewrite H; intros Heq; inversion Heq; subst; [reflexivity|].
  eapply place_nonBoxItems; eauto.
Qed.

Section Conservation.

Variable pack_rec : Box -> list Item -> bool -> pack_result.
Hypothesis pack_rec_conserves : forall b l rb b' left_,
  Items b = [] -> pack_rec b l rb = Ret (b', left_) ->
  nonBoxItems b' ++ left_ ≡ₚ l.

Lemma escalate_conserves (k : nat) (nbin currentBin : Box) (item : Item)
    (fitted : bool) (b' : Box) :
  Items nbin = [] ->
  escalate pack_rec k nbin currentBin item = Ret (fitted, b') ->
  if fitted then nonBoxItems b' ≡ₚ nonBoxItems currentBin ++ [item]
  else b' = currentBin.
Proof.
  revert nbin. induction k as [|k IH]; intros nbin Hn; simpl.
  - destruct (IsValid nbin); intros H; inversion H; subst; reflexivity.
  - destruct (IsValid nbin); [|intros H; inversion H; subst; reflexivity].
    destruct (pack_rec nbin _ false) as [[nbin1 l1]| |] eqn:Hrec;
      simpl; try discriminate.
    destruct (length l1 =? 0)%nat eqn:Hlen.
    + intros H; inversion H; subst.
      apply pack_rec_conserves in Hrec; [|exact Hn].
      destruct l1; [|discriminate Hlen].
      rewrite app_nil_r in Hrec. exact Hrec.
    + apply IH. apply getBiggerBox_empty.
Qed.

Lemma pack_rest_conserves (k : nat) (rest : list Item) (b : Box) (rb : bool)
    (np : list Item) (b' : Box) (left_ : list Item) :
  pack_rest pack_rec k rest b rb np = Ret (b', left_) ->
  nonBoxItems b' ++ left_ ≡ₚ nonBoxItems b ++ np ++ rest.
Proof.
  revert b np. induction rest as [|item rest IH]; intros b np; simpl.
  - intros H; inversion H; subst. rewrite app_nil_r. reflexivity.
  - assert (Hseat : forall b1, nonBoxItems b1 ≡ₚ nonBoxItems b ++ [item] ->
              pack_rest pack_rec k rest b1 rb np = Ret (b', left_) ->
              nonBoxItems b' ++ left_ ≡ₚ nonBoxItems b ++ np ++ item :: rest).
    { intros b1 Hb1 H. apply IH in H. rewrite H, Hb1.
      rewrite <- app_assoc. apply Permutation_app_head. simpl.
      apply Permutation_middle. }
    assert (Hkeep :
              pack_rest pack_rec k rest b rb (np ++ [item]) = Ret (b', left_) ->
              nonBoxItems b' ++ left_ ≡ₚ nonBoxItems b ++ np ++ item :: rest).
    { intros H. apply IH in H. rewrite H.
      rewrite <- (app_assoc np). reflexivity. }
    destruct (lookup b item) as [fitted bin1] eqn:Hl.
    apply lookup_nonBoxItems in Hl.
    destruct fitted; [apply Hseat; rewrite Hl; reflexivity|]. subst bin1.
    destruct rb; [|exact Hkeep].
    destruct (escalate pack_rec k (getBiggerBox b) b item)
      as [[fitted' bin2]| |] eqn:He; simpl; try discriminate.
    apply escalate_conserves in He; [|apply getBiggerBox_empty].
    destruct fitted'; [apply Hseat; exact He|]. subst bin2. exact Hkeep.
Qed.

End Conservation.

(** Started on an empty box, [pack] splits the batch into the items of the
    box it leaves and the items it returns. *)
Lemma pack_conserves (fuel : nat) (b : Box) (l : list Item) (rb : bool)
    (b' : Box) (left_ : list Item) :
  Items b = [] -> pack fuel b l rb = Ret (b', left_) ->
  nonBoxItems b' ++ left_ ≡ₚ l.
Proof.
  revert b l rb b' left_. induction fuel as [|fuel IH];
    intros b l rb b' left_ He; simpl; [discriminate|].
  destruct l as [|first rest]; simpl; [discriminate|].
  destruct (place b first origin) as [fit bin1] eqn:Hp.
  destruct fit; simpl.
  - intros H. apply (pack_rest_conserves (pack fuel) IH) in H.
    rewrite H. apply place_nonBoxItems in Hp. rewrite Hp.
    unfold nonBoxItems at 1. rewrite He. reflexivity.
  - apply place_fail_unchanged in Hp as ->.
    destruct (IsValid (getBiggerBox b)).
    + apply IH. apply getBiggerBox_empty.
    + intros H; inversion H; subst.
      unfold nonBoxItems. rewrite He. reflexivity.
Qed.

(** The items of all boxes of a list. *)
Definition packed_items (boxes : list Box) : list Item :=
  concat (map nonBoxItems boxes).

Lemma packed_items_snoc (boxes : list Box) (b : Box) :
  packed_items (boxes ++ [b]) = packed_items boxes ++ nonBoxItems b.
Proof.
  unfold packed_items. rewrite map_app, concat_app. simpl.
  rewrite app_nil_r. reflexivity.
Qed.

Lemma Pack_loop_conserves (fuel n : nat) (boxes : list Box)
    (notPacked : list Item) (bs : list Box) (e : option error) :
  Pack_loop fuel n boxes notPacked = Ret (bs, e) ->
  exists unpacked,
    packed_items bs ++ unpacked ≡ₚ packed_items boxes ++ notPacked /\
    (e = None <-> unpacked = []).
Proof.
  revert boxes notPacked. induction n as [|n IH]; intros boxes np;
    destruct np as [|x rest]; simpl;
    try (intros H; inversion H; subst; exists []; split;
         [reflexivity|tauto]);
    try discriminate.
  destruct (IsValid (pickBox x)); simpl.
  - destruct (pack fuel (pickBox x) (x :: rest) true) as [[bin1 np1]| |] eqn:Hp;
      simpl; try discriminate.
    apply pack_conserves in Hp; [|apply pickBox_empty].
    intros H. apply IH in H as (unpacked & Hperm & He).
    exists unpacked. split; [|exact He]. rewrite Hperm.
    destruct (0 <? length (Items bin1))%nat eqn:Hlen.
    + rewrite packed_items_snoc, <- app_assoc.
      apply Permutation_app_head. exact Hp.
    + apply Permutation_app_head.
      assert (nonBoxItems bin1 = []) as Hnil.
      { unfold nonBoxItems. destruct (Items bin1); [reflexivity|discriminate]. }
      rewrite Hnil in Hp. exact Hp.
  - intros H; inversion H; subst. exists (x :: rest).
    split; [reflexivity|]. split; discriminate.
Qed.

(** X1 (conservation): the items of the returned boxes together with the
    items left unpacked are exactly the input items, each as often as it
    was given; nothing is left unpacked exactly when [Pack] returns no
    error. *)
Theorem Pack_conserves (sort_swaps : list Item -> list (nat * nat))
    (fuel : nat) (notPacked : list Item) (boxes : list Box)
    (err : option error) :
  Pack sort_swaps fuel notPacked = Ret (boxes, err) ->
  exists unpacked,
    packed_items boxes ++ unpacked ≡ₚ notPacked /\
    (err = None <-> unpacked = []).
Proof.
  unfold Pack. intros H.
  destruct (sort_Sort sort_swaps notPacked) as [sorted| |] eqn:Hs;
    simpl in H; try discriminate.
  apply Pack_loop_conserves in H as (unpacked & Hperm & He).
  exists unpacked. split; [|exact He].
  rewrite Hperm. simpl. symmetry. eapply apply_swaps_perm. exact Hs.
Qed.

Lemma Pack_conserves_witness :
  exists unpacked,
    packed_items [test_box] ++ unpacked ≡ₚ test_items /\
    (@None error = None <-> unpacked = []).
Proof.
  apply (Pack_conserves insertion_swaps 40 test_items [test_box] None).
  vm_compute. reflexivity.
Defined.

(** ** The overlap test is symmetric *)

Lemma center_distance_sym (c1 c2 : Z) :
  (if c1 >? c2 then sub c1 c2 else sub c2 c1) =
  (if c2 >? c1 then sub c2 c1 else sub c1 c2).
Proof.
  rewrite !Z.gtb_ltb.
  destruct (c2 <? c1) eqn:H1; destruct (c1 <? c2) eqn:H2; try reflexivity.
  - apply Z.ltb_lt in H1. apply Z.ltb_lt in H2. lia.
  - apply Z.ltb_ge in H1. apply Z.ltb_ge in H2.
    assert (c1 = c2) by lia. subst. reflexivity.
Qed.

Lemma add_comm (a b : Z) : add a b = add b a.
Proof. unfold add. rewrite Z.add_comm. reflexivity. Qed.

Lemma intersect_sym (o1 o2 : Z * Z) (x1 y1 x2 y2 : Z) :
  intersect o1 o2 x1 y1 x2 y2 = intersect o2 o1 x2 y2 x1 y1.
Proof.
  unfold intersect. cbv zeta.
  rewrite (center_distance_sym (add (fst o1) (half x1))).
  rewrite (center_distance_sym (add (snd o1) (half y1))).
  rewrite (add_comm x1 x2), (add_comm y1 y2). reflexivity.
Qed.

(** X2: the overlap test does not depend on the order of its two items,
    for all positions and dimensions, wrap-around included. *)
Theorem BoxItem_intersect_sym (bi1 bi2 : BoxItem) :
  BoxItem_intersect bi1 bi2 = BoxItem_intersect bi2 bi1.
Proof.
  unfold BoxItem_intersect. cbv zeta.
  rewrite (intersect_sym (v0 (Pos bi1), v1 (Pos bi1))).
  rewrite (intersect_sym (v1 (Pos bi1), v2 (Pos bi1))).
  rewrite (intersect_sym (v0 (Pos bi1), v2 (Pos bi1))).
  reflexivity.
Qed.

(** ** The catalog look-ups *)

(** The item fits the empty template at the origin in some rotation. *)
Definition fits_empty (t : Box) (x : Item) : Prop :=
  exists rt, out_of_box t origin (Dimensions (mkBoxItem x origin rt)) = false.

Lemma place_from_empty (rts : list RotationType) (b : Box) (x : Item)
    (pos : Vec3) :
  Items b = [] ->
  fst (place_from rts b x pos) = true <->
  exists rt, In rt rts /\
    out_of_box b pos (Dimensions (mkBoxItem x pos rt)) = false.
Proof.
  intros He. induction rts as [|rt rts IH]; simpl.
  - split; [discriminate|intros (rt & [] & _)].
  - destruct (out_of_box b pos (Dimensions (mkBoxItem x pos rt))) eqn:Hout.
    + rewrite IH. split.
      * intros (r & Hin & Hr). exists r. auto.
      * intros (r & [<-|Hin] & Hr); [congruence|]. exists r. auto.
    + unfold collides. rewrite He. simpl. split; [|reflexivity].
      intros _. exists rt. auto.
Qed.

Lemma place_empty_fits (t : Box) (x : Item) :
  Items t = [] -> fst (place t x origin) = true <-> fits_empty t x.
Proof.
  intros He. unfold place. rewrite (place_from_empty _ _ _ _ He).
  unfold fits_empty. split.
  - intros (rt & _ & H). exists rt. exact H.
  - intros (rt & H). exists rt. split; [|exact H].
    destruct rt; simpl; tauto.
Qed.

Lemma pickBox_from_first (samples : list Box) (x : Item) :
  Forall (fun t => Items t = []) samples ->
  (pickBox_from samples x = zeroBox /\
   Forall (fun t => ~ fits_empty t x) samples) \/
  (exists pre t post, samples = pre ++ t :: post /\
     pickBox_from samples x = t /\ fits_empty t x /\
     Forall (fun t' => ~ fits_empty t' x) pre).
Proof.
  induction samples as [|t rest IH]; intros Hall; simpl.
  - left. split; [reflexivity|constructor].
  - inversion Hall as [|? ? Ht Hrest]; subst.
    destruct (fst (place t x origin)) eqn:Hp.
    + right. exists [], t, rest. split; [reflexivity|].
      split; [|split; [|constructor]].
      * destruct t as [n w h d wt its]. simpl in Ht. subst its. reflexivity.
      * apply place_empty_fits; assumption.
    + assert (~ fits_empty t x) as Hno.
      { intros Hf. apply (place_empty_fits t x Ht) in Hf. congruence. }
      destruct (IH Hrest) as [[Hz Hn] | (pre & t' & post & -> & Hpick & Hf & Hn)].
      * left. split; [exact Hz|]. constructor; assumption.
      * right. exists (t :: pre), t', post. split; [reflexivity|].
        split; [exact Hpick|]. split; [exact Hf|]. constructor; assumption.
Qed.

(** X3: [pickBox] returns the first template, in catalog order, that the
    item fits at the origin in one of the six rotations; it returns the
    zero box exactly when the item fits no template. *)
Theorem pickBox_first_fit (x : Item) :
  (pickBox x = zeroBox /\ IsValid (pickBox x) = false /\
   Forall (fun t => ~ fits_empty t x) BoxSamples) \/
  (exists pre t post, BoxSamples = pre ++ t :: post /\
     pickBox x = t /\ IsValid (pickBox x) = true /\ fits_empty t x /\
     Forall (fun t' => ~ fits_empty t' x) pre).
Proof.
  destruct (pickBox_from_first BoxSamples x BoxSamples_empty)
    as [[Hz Hn] | (pre & t & post & Hsplit & Hpick & Hf & Hn)].
  - left. unfold pickBox. rewrite Hz. auto.
  - right. exists pre, t, post. unfold pickBox. rewrite Hpick.
    repeat split; try assumption.
    assert (In t BoxSamples) as Hin.
    { rewrite Hsplit. apply in_or_app. right. now left. }
    clear -Hin. simpl in Hin.
    repeat (destruct Hin as [<-|Hin]; [reflexivity|]). destruct Hin.
Qed.

Lemma getBiggerBox_from_first (samples : list Box) (v : Z) :
  (getBiggerBox_from samples v = zeroBox /\
   Forall (fun t => volume t <= v) samples) \/
  (exists pre t post, samples = pre ++ t :: post /\
     getBiggerBox_from samples v = t /\ v < volume t /\
     Forall (fun t' => volume t' <= v) pre).
Proof.
  induction samples as [|t rest IH]; simpl.
  - left. split; [reflexivity|constructor].
  - destruct (v <? volume t) eqn:Hv.
    + apply Z.ltb_lt in Hv. right. exists [], t, rest.
      repeat split; auto.
    + apply Z.ltb_ge in Hv.
      destruct IH as [[Hz Hn] | (pre & t' & post & -> & Hg & Hlt & Hn)].
      * left. split; [exact Hz|]. constructor; assumption.
      * right. exists (t :: pre), t', post. repeat split; auto.
Qed.

(** X4: [getBiggerBox] returns the first template, in catalog order, of a
    strictly larger volume than the box, and the zero box when there is
    none; the result is valid exactly when the volume of the box is below
    that of Box12, 60217500. *)
Theorem getBiggerBox_first_larger (box : Box) :
  ((getBiggerBox box = zeroBox /\
    Forall (fun t => volume t <= volume box) BoxSamples) \/
   (exists pre t post, BoxSamples = pre ++ t :: post /\
      getBiggerBox box = t /\ volume box < volume t /\
      Forall (fun t' => volume t' <= volume box) pre)) /\
  (IsValid (getBiggerBox box) = true <-> volume box < 60217500).
Proof.
  split; [apply getBiggerBox_from_first|].
  split.
  - intros Hv. destruct (getBiggerBox_cases box) as [Hz | [Hin Hlt]].
    + rewrite Hz in Hv. discriminate Hv.
    + assert (volume (getBiggerBox box) <= 60217500); [|lia].
      clear -Hin. simpl in Hin.
      repeat (destruct Hin as [<-|Hin]; [vm_compute; discriminate|]).
      destruct Hin.
  - intros Hlt.
    destruct (getBiggerBox_from_first BoxSamples (volume box))
      as [[_ Hn] | (pre & t & post & Hsplit & Hg & _ & _)].
    + exfalso.
      assert (volume (template "Box12" 465 350 370 650) <= volume box) as H12.
      { apply (proj1 (List.Forall_forall _ _) Hn). simpl. tauto. }
      change (60217500 <= volume box) in H12. lia.
    + unfold getBiggerBox. rewrite Hg.
      assert (In t BoxSamples) as Hin.
      { rewrite Hsplit. apply in_or_app. right. now left. }
      clear -Hin. simpl in Hin.
      repeat (destruct Hin as [<-|Hin]; [reflexivity|]). destruct Hin.
Qed.

(** ** Rotations *)

Definition extents (bi : BoxItem) : list Z :=
  [v0 (Dimensions bi); v1 (Dimensions bi); v2 (Dimensions bi)].

Definition item_dims (it : Item) : list Z :=
  [GetWidth it; GetHeight it; GetDepth it].

Lemma extents_perm (bi : BoxItem) : extents bi ≡ₚ item_dims (BItem bi).
Proof.
  unfold extents, item_dims, Dimensions.
  destruct (RType bi); simpl.
  - reflexivity.
  - apply perm_swap.
  - etransitivity; [apply perm_skip, perm_swap|]. apply perm_swap.
  - etransitivity; [apply perm_swap|].
    etransitivity; [apply perm_skip, perm_swap|]. apply perm_swap.
  - etransitivity; [apply perm_swap|]. apply perm_skip, perm_swap.
  - apply perm_skip, perm_swap.
Qed.

(** X5: under every rotation the extents of a placed item are its width,
    height and depth in some order, and every order of the three is the
    result of one of the six rotations, so [place] tries every axis-aligned
    orientation. *)
Theorem rotations_complete (item : Item) (pos : Vec3) (a b c : Z) :
  [a; b; c] ≡ₚ item_dims item ->
  (exists rt, Dimensions (mkBoxItem item pos rt) = mkVec3 a b c) /\
  (forall rt, extents (mkBoxItem item pos rt) ≡ₚ item_dims item).
Proof.
  intros Hp. split; [|intros rt; apply (extents_perm (mkBoxItem item pos rt))].
  unfold item_dims in Hp. destruct item as [w h d wt]. simpl in *.
  assert (In a [w; h; d]) as Ha.
  { eapply Permutation_in; [exact Hp|]. now left. }
  destruct Ha as [<-|[<-|[<-|[]]]].
  - apply Permutation_cons_inv in Hp.
    symmetry in Hp. apply Permutation_length_2_inv in Hp as [Hp|Hp];
      inversion Hp; subst.
    + exists RT1. reflexivity.
    + exists RT6. reflexivity.
  - assert ([b; c] ≡ₚ [w; d]) as Hp'.
    { apply (Permutation_cons_inv (a := h)).
      etransitivity; [exact Hp|]. apply perm_swap. }
    symmetry in Hp'. apply Permutation_length_2_inv in Hp' as [Hp'|Hp'];
      inversion Hp'; subst.
    + exists RT2. reflexivity.
    + exists RT3. reflexivity.
  - assert ([b; c] ≡ₚ [w; h]) as Hp'.
    { apply (Permutation_cons_inv (a := d)).
      etransitivity; [exact Hp|].
      etransitivity; [apply perm_skip, perm_swap|]. apply perm_swap. }
    symmetry in Hp'. apply Permutation_length_2_inv in Hp' as [Hp'|Hp'];
      inversion Hp'; subst.
    + exists RT5. reflexivity.
    + exists RT4. reflexivity.
Qed.

Lemma rotations_complete_witness :
  (exists rt, Dimensions (mkBoxItem (mkItem 10 20 30 5) origin rt) =
              mkVec3 30 10 20) /\
  (forall rt, extents (mkBoxItem (mkItem 10 20 30 5) origin rt) ≡ₚ
              item_dims (mkItem 10 20 30 5)).
Proof.
  apply (rotations_complete (mkItem 10 20 30 5) origin 30 10 20).
  unfold item_dims. simpl.
  apply (Permutation_cons_append [10; 20] 30).
Defined.

(** ** What a call of [place] changes *)

(** X6: [place] never changes the template of the box and never touches
    the items already placed. A failed call leaves the box as it was; a
    successful call appends exactly one placed item, holding the given
    item at the given position, that passes the boundary test and is not
    reported to collide with any earlier item. *)
Theorem place_effect (b b' : Box) (item : Item) (pos : Vec3) (fit : bool) :
  place b item pos = (fit, b') ->
  same_template b b' /\
  if fit then
    exists rt,
      Items b' = Items b ++ [mkBoxItem item pos rt] /\
      in_bounds b' (mkBoxItem item pos rt) /\
      Forall (fun bj => BoxItem_intersect bj (mkBoxItem item pos rt) = false)
             (Items b)
  else b' = b.
Proof.
  intros Hp. split; [eapply place_same_template; eauto|].
  destruct (place_cases b item pos) as [H | (rt & Hout & Hcol & H)];
    rewrite H in Hp; inversion Hp; subst; [reflexivity|].
  exists rt. split; [reflexivity|]. split.
  - apply (out_of_box_false b (mkBoxItem item pos rt)) in Hout. exact Hout.
  - apply collides_false. exact Hcol.
Qed.

Lemma place_effect_witness :
  same_template abort_box abort_box /\ abort_box = abort_box.
Proof.
  apply (place_effect abort_box abort_box abort_item abort_pos false).
  reflexivity.
Defined.

(** ** The order of the items [pack] returns *)

Lemma sorted_desc_cons (x : Item) (l : list Item) :
  sorted_desc (x :: l) <->
  Forall (fun y => item_volume y <= item_volume x) l /\ sorted_desc l.
Proof.
  unfold sorted_desc. split.
  - intros H. split.
    + apply List.Forall_forall. intros y Hy.
      apply list_elem_of_In, list_elem_of_lookup in Hy as [j Hj].
      apply (H 0%nat (S j) x y); [lia|reflexivity|exact Hj].
    + intros i j a b Hij Hi Hj.
      apply (H (S i) (S j) a b); [lia|exact Hi|exact Hj].
  - intros [Hall Hs] i j a b Hij Hi Hj.
    destruct j as [|j]; [lia|]. simpl in Hj.
    destruct i as [|i].
    + simpl in Hi. inversion Hi; subst.
      apply (proj1 (List.Forall_forall _ _) Hall).
      apply list_elem_of_In, list_elem_of_lookup. eauto.
    + simpl in Hi. apply (Hs i j a b); [lia|exact Hi|exact Hj].
Qed.

Lemma sorted_desc_sublist (l1 l2 : list Item) :
  sublist l1 l2 -> sorted_desc l2 -> sorted_desc l1.
Proof.
  induction 1 as [|x l1 l2 Hsub IH|x l1 l2 Hsub IH]; intros Hs.
  - exact Hs.
  - apply sorted_desc_cons in Hs as [Hall Hs].
    apply sorted_desc_cons. split; [|auto].
    eapply Forall_of_sublist; eauto.
  - apply sorted_desc_cons in Hs as [_ Hs]. auto.
Qed.

(** X7: the items [pack] returns as not packed are a subsequence of the
    batch it was given: none is invented, none is duplicated, and their
    order is kept. A batch in descending volume therefore stays in
    descending volume, which is why [Pack] sorts only once. *)
Theorem pack_returns_subsequence (fuel : nat) (b : Box) (toPack : list Item)
    (rb : bool) (b' : Box) (left_ : list Item) :
  pack fuel b toPack rb = Ret (b', left_) ->
  sublist left_ toPack /\ (sorted_desc toPack -> sorted_desc left_).
Proof.
  intros H. apply pack_leftover_sublist in H.
  split; [exact H|]. apply sorted_desc_sublist. exact H.
Qed.

Lemma pack_returns_subsequence_witness :
  sublist [item_rod] [item_cube; item_rod] /\
  (sorted_desc [item_cube; item_rod] -> sorted_desc [item_rod]).
Proof.
  apply (pack_returns_subsequence 30 (pickBox item_cube)
           [item_cube; item_rod] true
           (with_items (template "Box1" 220 160 100 110)
              [mkBoxItem item_cube origin RT1])).
  vm_compute. reflexivity.
Defined.

(** ** [Items.Swap] *)

(** X8: [Items.Swap(i, j)] panics exactly when an index is out of range.
    Otherwise it exchanges the two elements, keeps the length and all other
    elements (the result is a permutation), and a second swap of the same
    indices restores the slice. *)
Theorem Items_Swap_exchanges (its : list Item) (i j : nat) :
  (Items_Swap its i j = Panic <->
   ~ (i < length its /\ j < length its)%nat) /\
  (forall its', Items_Swap its i j = Ret its' ->
     its' !! i = its !! j /\ its' !! j = its !! i /\
     (forall k, k <> i -> k <> j -> its' !! k = its !! k) /\
     length its' = length its /\ its ≡ₚ its' /\
     Items_Swap its' i j = Ret its).
Proof.
  split.
  - unfold Items_Swap. split.
    + destruct (its !! i) as [a|] eqn:Hi.
      * destruct (its !! j) as [b|] eqn:Hj; [discriminate|].
        intros _ [_ H]. apply lookup_ge_None_1 in Hj. lia.
      * intros _ [H _]. apply lookup_ge_None_1 in Hi. lia.
    + intros Hn.
      destruct (its !! i) as [a|] eqn:Hi; [|reflexivity].
      destruct (its !! j) as [b|] eqn:Hj; [|reflexivity].
      exfalso. apply Hn. split; eapply lookup_lt_Some; eauto.
  - intros its' Hs. pose proof (Items_Swap_perm _ _ _ _ Hs) as Hperm.
    unfold Items_Swap in *.
    destruct (its !! i) as [a|] eqn:Hi; [|discriminate].
    destruct (its !! j) as [b|] eqn:Hj; [|discriminate].
    inversion Hs; subst its'; clear Hs.
    assert (i < length its)%nat as Hil by (eapply lookup_lt_Some; eauto).
    assert (j < length its)%nat as Hjl by (eapply lookup_lt_Some; eauto).
    assert (<[j:=a]> (<[i:=b]> its) !! j = Some a) as Hj'.
    { apply list_lookup_insert_eq. rewrite length_insert. exact Hjl. }
    assert (<[j:=a]> (<[i:=b]> its) !! i = Some b) as Hi'.
    { destruct (decide (i = j)) as [->|Hne].
      - rewrite Hj'. congruence.
      - rewrite list_lookup_insert_ne by auto.
        apply list_lookup_insert_eq. exact Hil. }
    split; [congruence|]. split; [congruence|]. split.
    { intros k Hki Hkj. rewrite !list_lookup_insert_ne by auto. reflexivity. }
    split; [rewrite !length_insert; reflexivity|]. split; [exact Hperm|].
    rewrite Hi', Hj'. f_equal. apply list_eq. intros k.
    destruct (decide (k = j)) as [->|Hkj].
    + rewrite list_lookup_insert_eq by (rewrite !length_insert; exact Hjl).
      congruence.
    + rewrite list_lookup_insert_ne by auto.
      destruct (decide (k = i)) as [->|Hki].
      * rewrite list_lookup_insert_eq by (rewrite !length_insert; exact Hil).
        congruence.
      * rewrite !list_lookup_insert_ne by auto. reflexivity.
Qed.

(** ** How far the overlap test can be trusted *)

(** The comparison [intersect] makes on one axis. *)
Definition axis_test (o1 w1 o2 w2 : Z) : bool :=
  let c1 := add o1 (half w1) in
  let c2 := add o2 (half w2) in
  (if c1 >? c2 then sub c1 c2 else sub c2 c1) <? half (add w1 w2).

Lemma intersect_axes (o1 o2 : Z * Z) (x1 y1 x2 y2 : Z) :
  intersect o1 o2 x1 y1 x2 y2 =
  axis_test (fst o1) x1 (fst o2) x2 && axis_test (snd o1) y1 (snd o2) y2.
Proof. reflexivity. Qed.

Lemma BoxItem_intersect_axes (bi1 bi2 : BoxItem) :
  BoxItem_intersect bi1 bi2 =
  axis_test (v0 (Pos bi1)) (v0 (Dimensions bi1))
            (v0 (Pos bi2)) (v0 (Dimensions bi2))
  && axis_test (v1 (Pos bi1)) (v1 (Dimensions bi1))
               (v1 (Pos bi2)) (v1 (Dimensions bi2))
  && axis_test (v2 (Pos bi1)) (v2 (Dimensions bi1))
               (v2 (Pos bi2)) (v2 (Dimensions bi2)).
Proof.
  unfold BoxItem_intersect. cbv zeta. rewrite !intersect_axes. simpl.
  destruct (axis_test (v0 (Pos bi1)) _ _ _);
    destruct (axis_test (v1 (Pos bi1)) _ _ _);
    destruct (axis_test (v2 (Pos bi1)) _ _ _); reflexivity.
Qed.

Lemma half_bounds (w : Z) : 0 <= w -> 2 * half w <= w <= 2 * half w + 1.
Proof.
  intros Hw. unfold half. rewrite Z.quot_div_nonneg by lia.
  pose proof (Z.div_mod w 2). pose proof (Z.mod_pos_bound w 2). lia.
Qed.

(** Without wrap-around the comparison is the one on truncated halves. *)
Lemma axis_test_plain (o1 w1 o2 w2 : Z) :
  0 <= o1 <= 2 ^ 62 -> 0 <= o2 <= 2 ^ 62 ->
  0 < w1 < 2 ^ 61 -> 0 < w2 < 2 ^ 61 ->
  axis_test o1 w1 o2 w2 =
  (Z.abs ((o1 + half w1) - (o2 + half w2)) <? half (w1 + w2)).
Proof.
  intros Ho1 Ho2 Hw1 Hw2. unfold axis_test. cbv zeta.
  pose proof (half_bounds w1). pose proof (half_bounds w2).
  rewrite (add_small o1) by (unfold in_range, min_int, max_int; lia).
  rewrite (add_small o2) by (unfold in_range, min_int, max_int; lia).
  rewrite (add_small w1) by (unfold in_range, min_int, max_int; lia).
  unfold sub.
  rewrite !wrap_in_range by (unfold in_range, min_int, max_int; lia).
  rewrite Z.gtb_ltb.
  destruct (o2 + half w2 <? o1 + half w1) eqn:Hc;
    [apply Z.ltb_lt in Hc|apply Z.ltb_ge in Hc]; f_equal; lia.
Qed.

Lemma axis_test_sound (o1 w1 o2 w2 : Z) :
  0 <= o1 <= 2 ^ 62 -> 0 <= o2 <= 2 ^ 62 ->
  0 < w1 < 2 ^ 61 -> 0 < w2 < 2 ^ 61 ->
  axis_test o1 w1 o2 w2 = true -> overlap_1d o1 w1 o2 w2 = true.
Proof.
  intros Ho1 Ho2 Hw1 Hw2. rewrite axis_test_plain by assumption.
  unfold overlap_1d. rewrite !Z.ltb_lt.
  pose proof (half_bounds w1). pose proof (half_bounds w2).
  pose proof (half_bounds (w1 + w2)). lia.
Qed.

Lemma axis_test_exact (o1 w1 o2 w2 : Z) :
  0 <= o1 <= 2 ^ 62 -> 0 <= o2 <= 2 ^ 62 ->
  0 < w1 < 2 ^ 61 -> 0 < w2 < 2 ^ 61 ->
  Z.even w1 = Z.even w2 ->
  axis_test o1 w1 o2 w2 = overlap_1d o1 w1 o2 w2.
Proof.
  intros Ho1 Ho2 Hw1 Hw2 Hpar. rewrite axis_test_plain by assumption.
  unfold overlap_1d.
  pose proof (half_bounds w1) as Hb1. pose proof (half_bounds w2) as Hb2.
  pose proof (half_bounds (w1 + w2)) as Hb12.
  assert (exists m1 m2 r, (r = 0 \/ r = 1) /\ w1 = 2 * m1 + r /\
            w2 = 2 * m2 + r) as (m1 & m2 & r & Hr & H1 & H2).
  { destruct (Z.even w1) eqn:E1; symmetry in Hpar.
    - apply Z.even_spec in E1 as [m1 E1]. apply Z.even_spec in Hpar as [m2 E2].
      exists m1, m2, 0. lia.
    - rewrite <- Z.negb_odd in E1, Hpar.
      apply negb_false_iff in E1. apply negb_false_iff in Hpar.
      apply Z.odd_spec in E1 as [m1 E1]. apply Z.odd_spec in Hpar as [m2 E2].
      exists m1, m2, 1. lia. }
  apply eq_true_iff_eq. rewrite !Z.ltb_lt. lia.
Qed.

(** A placed item whose position and dimensions keep all sums within the
    range of [int]. *)
Definition placed_sane (bi : BoxItem) : Prop :=
  item_ok (BItem bi) /\
  0 <= v0 (Pos bi) <= 2 ^ 62 /\ 0 <= v1 (Pos bi) <= 2 ^ 62 /\
  0 <= v2 (Pos bi) <= 2 ^ 62.

Lemma placed_sane_extents (bi : BoxItem) :
  placed_sane bi ->
  0 < v0 (Dimensions bi) < 2 ^ 61 /\ 0 < v1 (Dimensions bi) < 2 ^ 61 /\
  0 < v2 (Dimensions bi) < 2 ^ 61.
Proof.
  intros [Hok _]. destruct bi as [it pos rt].
  exact (Dimensions_ok it pos rt Hok).
Qed.

(** X9: for items of positive dimensions at non-negative positions (no
    wrap-around), [intersect] never reports a collision that is not one:
    when it returns true the two rotated boxes share a region of positive
    volume; items that merely touch are not reported. Its only errors are
    missed overlaps. *)
Theorem intersect_reports_real_overlaps (bi1 bi2 : BoxItem) :
  placed_sane bi1 -> placed_sane bi2 ->
  BoxItem_intersect bi1 bi2 = true -> overlaps bi1 bi2 = true.
Proof.
  intros Hs1 Hs2.
  pose proof (placed_sane_extents bi1 Hs1) as (Ha0 & Ha1 & Ha2).
  pose proof (placed_sane_extents bi2 Hs2) as (Hb0 & Hb1 & Hb2).
  destruct Hs1 as (_ & Hp0 & Hp1 & Hp2). destruct Hs2 as (_ & Hq0 & Hq1 & Hq2).
  rewrite BoxItem_intersect_axes. unfold overlaps. cbv zeta.
  rewrite !andb_true_iff. intros [[H0 H1] H2].
  repeat split; apply axis_test_sound; assumption.
Qed.

Lemma intersect_reports_real_overlaps_witness :
  overlaps (mkBoxItem item_cube origin RT1)
           (mkBoxItem item_small (mkVec3 60 60 60) RT1) = true.
Proof.
  apply intersect_reports_real_overlaps.
  - unfold placed_sane, item_ok. simpl. lia.
  - unfold placed_sane, item_ok. simpl. lia.
  - reflexivity.
Defined.

(** The two items have, on each axis, extents of the same parity. *)
Definition same_parity (bi1 bi2 : BoxItem) : Prop :=
  Z.even (v0 (Dimensions bi1)) = Z.even (v0 (Dimensions bi2)) /\
  Z.even (v1 (Dimensions bi1)) = Z.even (v1 (Dimensions bi2)) /\
  Z.even (v2 (Dimensions bi1)) = Z.even (v2 (Dimensions bi2)).

(** X10: when on every axis the extents of the two items are both even or
    both odd, the truncation cancels and [intersect] is exact: it returns
    true if and only if the rotated boxes overlap with positive volume. *)
Theorem intersect_exact_same_parity (bi1 bi2 : BoxItem) :
  placed_sane bi1 -> placed_sane bi2 -> same_parity bi1 bi2 ->
  BoxItem_intersect bi1 bi2 = overlaps bi1 bi2.
Proof.
  intros Hs1 Hs2 (He0 & He1 & He2).
  pose proof (placed_sane_extents bi1 Hs1) as (Ha0 & Ha1 & Ha2).
  pose proof (placed_sane_extents bi2 Hs2) as (Hb0 & Hb1 & Hb2).
  destruct Hs1 as (_ & Hp0 & Hp1 & Hp2). destruct Hs2 as (_ & Hq0 & Hq1 & Hq2).
  rewrite BoxItem_intersect_axes. unfold overlaps. cbv zeta.
  rewrite !axis_test_exact by assumption. reflexivity.
Qed.

Lemma intersect_exact_same_parity_witness :
  BoxItem_intersect (mkBoxItem item_cube origin RT1)
                    (mkBoxItem item_small (mkVec3 100 0 0) RT1) =
  overlaps (mkBoxItem item_cube origin RT1)
           (mkBoxItem item_small (mkVec3 100 0 0) RT1).
Proof.
  apply intersect_exact_same_parity.
  - unfold placed_sane, item_ok. simpl. lia.
  - unfold placed_sane, item_ok. simpl. lia.
  - repeat split.
Defined.

(** ** The boxes [Pack] returns *)

Section VolumeMono.

Variable pack_rec : Box -> list Item -> bool -> pack_result.
Hypothesis pack_rec_mono : forall b l rb b' left_,
  pack_rec b l rb = Ret (b', left_) -> volume b <= volume b'.

Lemma escalate_volume (k : nat) (nbin currentBin : Box) (item : Item)
    (fitted : bool) (b' : Box) :
  (IsValid nbin = true -> volume currentBin <= volume nbin) ->
  escalate pack_rec k nbin currentBin item = Ret (fitted, b') ->
  volume currentBin <= volume b'.
Proof.
  revert nbin. induction k as [|k IH]; intros nbin Hn; simpl.
  - destruct (IsValid nbin); intros H; inversion H; subst; lia.
  - destruct (IsValid nbin) eqn:Hv; [|intros H; inversion H; subst; lia].
    specialize (Hn eq_refl).
    destruct (pack_rec nbin _ false) as [[nbin1 l1]| |] eqn:Hrec;
      simpl; try discriminate.
    apply pack_rec_mono in Hrec.
    destruct (length l1 =? 0)%nat.
    + intros H; inversion H; subst. lia.
    + apply IH. intros Hv1. apply getBiggerBox_bigger in Hv1. lia.
Qed.

Lemma pack_rest_volume (k : nat) (rest : list Item) (b : Box) (rb : bool)
    (np : list Item) (b' : Box) (left_ : list Item) :
  pack_rest pack_rec k rest b rb np = Ret (b', left_) ->
  volume b <= volume b'.
Proof.
  revert b np. induction rest as [|item rest IH]; intros b np; simpl.
  - intros H; inversion H; subst. lia.
  - destruct (lookup b item) as [fitted bin1] eqn:Hl.
    apply lookup_same_template, same_template_volume in Hl.
    destruct fitted; [intros H; apply IH in H; lia|].
    destruct rb; [|intros H; apply IH in H; lia].
    destruct (escalate pack_rec k (getBiggerBox bin1) bin1 item)
      as [[fitted' bin2]| |] eqn:He; simpl; try discriminate.
    apply escalate_volume in He;
      [|intros Hv; apply getBiggerBox_bigger in Hv; lia].
    destruct fitted'; intros H; apply IH in H; lia.
Qed.

End VolumeMono.

(** Escalation only moves to templates of a larger volume. *)
Lemma pack_volume (fuel : nat) (b : Box) (l : list Item) (rb : bool)
    (b' : Box) (left_ : list Item) :
  pack fuel b l rb = Ret (b', left_) -> volume b <= volume b'.
Proof.
  revert b l rb b' left_. induction fuel as [|fuel IH];
    intros b l rb b' left_; simpl; [discriminate|].
  destruct l as [|first rest]; simpl; [discriminate|].
  destruct (place b first origin) as [fit bin1] eqn:Hp.
  apply place_same_template, same_template_volume in Hp.
  destruct fit; simpl.
  - intros H. apply (pack_rest_volume (pack fuel) IH) in H. lia.
  - destruct (IsValid (getBiggerBox bin1)) eqn:Hv.
    + intros H. apply IH in H. apply getBiggerBox_bigger in Hv. lia.
    + intros H; inversion H; subst. lia.
Qed.

(** The box is of one of the catalog templates. *)
Definition of_catalog (b : Box) : Prop :=
  exists t, In t BoxSamples /\ same_template t b.

Lemma BoxSamples_positive : Forall (fun t => 0 < volume t) BoxSamples.
Proof. repeat constructor. Qed.

Lemma IsValid_same_template (b b' : Box) :
  same_template b b' -> IsValid b' = IsValid b.
Proof.
  intros H. unfold IsValid. rewrite (same_template_volume _ _ H). reflexivity.
Qed.

Lemma pack_of_catalog (fuel : nat) (b : Box) (l : list Item) (rb : bool)
    (b' : Box) (left_ : list Item) :
  (IsValid b = true -> of_catalog b) ->
  pack fuel b l rb = Ret (b', left_) ->
  IsValid b' = true -> of_catalog b'.
Proof.
  intros Hb H.
  apply (pack_inv (fun _ => True)
           (fun b => IsValid b = true -> of_catalog b)) with (6 := H).
  - intros b0 _. apply Forall_forall. auto.
  - intros b0 Hv. destruct (getBiggerBox_cases b0) as [Hz | [Hin _]].
    + rewrite Hz in Hv. discriminate Hv.
    + exists (getBiggerBox b0). split; [exact Hin|apply same_template_refl].
  - intros b0 item pos b1 Hb0 _ _ Hp Hv.
    apply place_same_template in Hp.
    rewrite (IsValid_same_template _ _ Hp) in Hv.
    destruct (Hb0 Hv) as (t & Hin & Ht).
    exists t. split; [exact Hin|]. eapply same_template_trans; eauto.
  - exact Hb.
  - apply Forall_forall. auto.
Qed.

Lemma pickBox_of_catalog (x : Item) :
  IsValid (pickBox x) = true -> of_catalog (pickBox x) /\ 0 < volume (pickBox x).
Proof.
  destruct (pickBox_cases x) as [-> | (b & Hin & _ & ->)];
    [rewrite IsValid_zeroBox; discriminate|].
  intros _. split.
  - exists b. split; [exact Hin|]. repeat split.
  - exact (proj1 (List.Forall_forall _ _) BoxSamples_positive _ Hin).
Qed.

Lemma Pack_loop_boxes (fuel n : nat) (boxes : list Box)
    (notPacked : list Item) (bs : list Box) (e : option error) :
  Forall (fun b => Items b <> [] /\ of_catalog b) boxes ->
  Pack_loop fuel n boxes notPacked = Ret (bs, e) ->
  Forall (fun b => Items b <> [] /\ of_catalog b) bs.
Proof.
  revert boxes notPacked. induction n as [|n IH]; intros boxes np Hbs;
    destruct np as [|x rest]; simpl;
    try (intros H; inversion H; subst; assumption); try discriminate.
  destruct (IsValid (pickBox x)) eqn:Hv; simpl;
    [|intros H; inversion H; subst; assumption].
  destruct (pack fuel (pickBox x) (x :: rest) true) as [[bin1 np1]| |] eqn:Hp;
    simpl; try discriminate.
  apply IH.
  destruct (0 <? length (Items bin1))%nat eqn:Hlen; [|assumption].
  apply Forall_app. split; [assumption|]. constructor; [|constructor].
  split.
  - intros He. rewrite He in Hlen. discriminate Hlen.
  - destruct (pickBox_of_catalog x Hv) as [Hcat Hpos].
    apply (pack_of_catalog _ _ _ _ _ _ (fun _ => Hcat) Hp).
    apply pack_volume in Hp. unfold IsValid.
    destruct (volume bin1 =? 0) eqn:Hz; [|reflexivity].
    apply Z.eqb_eq in Hz. lia.
Qed.

(** X11: every box [Pack] returns holds at least one item and is of one of
    the twelve catalog templates: its name, dimensions and weight are
    those of an entry of [BoxSamples]. *)
Theorem Pack_returns_catalog_boxes
    (sort_swaps : list Item -> list (nat * nat)) (fuel : nat)
    (notPacked : list Item) (boxes : list Box) (err : option error) :
  Pack sort_swaps fuel notPacked = Ret (boxes, err) ->
  forall b, In b boxes -> Items b <> [] /\ of_catalog b.
Proof.
  unfold Pack. intros H b Hb.
  destruct (sort_Sort sort_swaps notPacked) as [sorted| |];
    simpl in H; try discriminate.
  apply Pack_loop_boxes in H; [|constructor].
  exact (proj1 (List.Forall_forall _ _) H _ Hb).
Qed.

Lemma Pack_returns_catalog_boxes_witness :
  Items test_box <> [] /\ of_catalog test_box.
Proof.
  apply (Pack_returns_catalog_boxes insertion_swaps 40 test_items
           [test_box] None).
  - vm_compute. reflexivity.
  - simpl. left. reflexivity.
Defined.
